(** * The memento demo (src/design-pattern/behavioral/Memento.ts)

    A shallow embedding of the three classes of the file, [Originator],
    [ConcreteMemento] and [Caretaker], over an explicit object store, and
    the properties of the snapshot/rollback triad that hold of them.

    JavaScript objects are references: an [Originator] is shared between
    the client and its [Caretaker], and a [ConcreteMemento] is shared
    between the [Caretaker]'s array and whoever still holds it.  The model
    therefore keeps one store per class, keyed by reference, and every
    method is a computation over the whole [World].

    Strings are Rocq strings, sequences of 8-bit characters, where
    JavaScript has sequences of 16-bit code units; the string methods
    the file uses count positions, and are modelled position for
    position.  The definitions come first, then the lemmas and the
    theorems. *)

From stdpp Require Import base gmap list strings.
From Stdlib Require Import Ascii.

Local Open Scope stdpp_scope.

(** ** JavaScript strings and arrays, as far as the file uses them *)

Module Js.

(** [s.substr(start, len)] for non-negative arguments: at most [len]
    characters from [start] on, fewer when the string ends first. *)
Definition substr (start len : nat) (s : string) : string :=
  String.substring start len s.

(** [s.slice(from, to)] for [0 <= from <= to]. *)
Definition slice (from to : nat) (s : string) : string :=
  String.substring from (to - from) s.

(** The characters of [s] from position [n] on. *)
Fixpoint skip (n : nat) (s : string) : string :=
  match n, s with
  | O, _ => s
  | S _, EmptyString => EmptyString
  | S n', String _ s' => skip n' s'
  end.

(** [s.replace(pat, by)] with a string pattern: only the first
    occurrence of [pat] is replaced.  (The replacement used in the file
    holds no [$] pattern.) *)
Fixpoint replace (pat by_ s : string) : string :=
  if String.prefix pat s then by_ +:+ skip (String.length pat) s
  else match s with
       | EmptyString => EmptyString
       | String c s' => String c (replace pat by_ s')
       end.

(** [s.charAt(i)]: a string of one character, empty out of range. *)
Definition charAt (i : nat) (s : string) : string :=
  match String.get i s with
  | Some c => String c EmptyString
  | None => EmptyString
  end.

(** [xs.join('')]. *)
Definition join (xs : list string) : string :=
  foldr String.append EmptyString xs.

(** [Array(x)] for an [x] that is not a number: the array [[x]]. *)
Definition Array {A : Type} (x : A) : list A := [x].

(** The line feed of the [\n] escape. *)
Definition LF : string := String (ascii_of_nat 10) EmptyString.

End Js.

(** ** Objects and the world *)

(** References to objects. *)
Abbreviation ref := positive.

(** The private fields of the three classes. *)
Record OriginatorObj : Type := MkOriginator {
  o_state : string
}.

Record MementoObj : Type := MkMemento {
  m_state : string;
  m_date : string
}.

Record CaretakerObj : Type := MkCaretaker {
  c_mementos : list ref;   (* Memento[], most recent at the end *)
  c_originator : ref
}.

(** The world: one store per class, what [console.log] has printed so
    far (oldest line first), and the system clock: [clock] is what
    [new Date().toISOString()] returns now.  (The other input from the
    environment, [Math.random], is an argument of [doSomething].) *)
Record World : Type := MkWorld {
  originators : gmap positive OriginatorObj;
  snapshots : gmap positive MementoObj;
  caretakers : gmap positive CaretakerObj;
  console : list string;
  clock : string
}.

(** ** Computations: state passing with [throw] *)

Inductive Exn : Type :=
| JsError       (* the object of [throw new Error()] *)
| BadReference. (* a reference the store does not hold; no JavaScript
                   program can make one, well-formed worlds have none *)

Inductive Outcome (A : Type) : Type :=
| Normal (a : A)
| Thrown (e : Exn).
Global Arguments Normal {A} a.
Global Arguments Thrown {A} e.

Definition Comp (A : Type) : Type := World → Outcome A * World.

Global Instance Comp_ret : MRet Comp := λ A a w, (Normal a, w).
Global Instance Comp_bind : MBind Comp := λ A B k m w,
  match m w with
  | (Normal a, w') => k a w'
  | (Thrown e, w') => (Thrown e, w')
  end.
Global Instance Comp_throw : MThrow Exn Comp := λ A e w, (Thrown e, w).

(** [console.log(line)]. *)
Definition log (line : string) : Comp unit := λ w,
  (Normal tt,
   MkWorld (originators w) (snapshots w) (caretakers w)
           (console w ++ [line]) (clock w)).

(** [new Date().toISOString()]. *)
Definition now : Comp string := λ w, (Normal (clock w), w).

(** Field reads and writes, and [new], per class. *)
Definition readOriginator (o : ref) : Comp OriginatorObj := λ w,
  match originators w !! o with
  | Some obj => (Normal obj, w)
  | None => (Thrown BadReference, w)
  end.

Definition writeOriginator (o : ref) (obj : OriginatorObj) : Comp unit := λ w,
  match originators w !! o with
  | Some _ =>
      (Normal tt,
       MkWorld (<[o := obj]> (originators w)) (snapshots w) (caretakers w)
               (console w) (clock w))
  | None => (Thrown BadReference, w)
  end.

Definition allocOriginator (obj : OriginatorObj) : Comp ref := λ w,
  let o := fresh (dom (originators w)) in
  (Normal o,
   MkWorld (<[o := obj]> (originators w)) (snapshots w) (caretakers w)
           (console w) (clock w)).

Definition readMemento (m : ref) : Comp MementoObj := λ w,
  match snapshots w !! m with
  | Some obj => (Normal obj, w)
  | None => (Thrown BadReference, w)
  end.

Definition allocMemento (obj : MementoObj) : Comp ref := λ w,
  let m := fresh (dom (snapshots w)) in
  (Normal m,
   MkWorld (originators w) (<[m := obj]> (snapshots w)) (caretakers w)
           (console w) (clock w)).

Definition readCaretaker (c : ref) : Comp CaretakerObj := λ w,
  match caretakers w !! c with
  | Some obj => (Normal obj, w)
  | None => (Thrown BadReference, w)
  end.

Definition writeCaretaker (c : ref) (obj : CaretakerObj) : Comp unit := λ w,
  match caretakers w !! c with
  | Some _ =>
      (Normal tt,
       MkWorld (originators w) (snapshots w) (<[c := obj]> (caretakers w))
               (console w) (clock w))
  | None => (Thrown BadReference, w)
  end.

Definition allocCaretaker (obj : CaretakerObj) : Comp ref := λ w,
  let c := fresh (dom (caretakers w)) in
  (Normal c,
   MkWorld (originators w) (snapshots w) (<[c := obj]> (caretakers w))
           (console w) (clock w)).

(** [for (const x of xs) body(x)]. *)
Fixpoint forOf {A : Type} (xs : list A) (body : A → Comp unit) : Comp unit :=
  match xs with
  | [] => mret tt
  | x :: xs' => body x ;; forOf xs' body
  end.

(** ** ConcreteMemento *)

Module ConcreteMemento.

(** [iso.slice(0, 19).replace('T', ' ')], the [date] field of a
    memento made when the clock reads [iso]. *)
Definition stamp (iso : string) : string :=
  Js.replace "T" " " (Js.slice 0 19 iso).

(** [constructor(state)]. *)
Definition new (state : string) : Comp ref :=
  iso ← now;
  allocMemento (MkMemento state (stamp iso)).

Definition getState (this : ref) : Comp string :=
  obj ← readMemento this; mret (m_state obj).

(** The label built by [getName] from the two fields. *)
Definition name_of (obj : MementoObj) : string :=
  m_date obj +:+ " / (" +:+ Js.substr 0 9 (m_state obj) +:+ "...)".

Definition getName (this : ref) : Comp string :=
  obj ← readMemento this; mret (name_of obj).

Definition getDate (this : ref) : Comp string :=
  obj ← readMemento this; mret (m_date obj).

End ConcreteMemento.

(** ** Originator *)

Module Originator.

(** [constructor(state)]. *)
Definition new (state : string) : Comp ref :=
  this ← allocOriginator (MkOriginator state);
  log ("Originator: My initial state is: " +:+ state);;
  mret this.

Definition charSet : string :=
  "abcdefghijklmnopqrstuvwxyzABCDEFGHIJKLMNOPQRSTUVWXYZ".

(** [generateRandomString(length)].  [Array({ length })] is the array
    of ONE element, the object [{ length }], so the callback of [map]
    runs once whatever [length] is.  [draw i] is the value of
    [Math.floor(Math.random() * charSet.length)] in the callback's
    [i]-th run. *)
Definition generateRandomString (length : nat) (draw : nat → nat) : string :=
  Js.join (imap (λ i _, Js.charAt (draw i) charSet) (Js.Array length)).

Definition doSomething (this : ref) (draw : nat → nat) : Comp unit :=
  log "Originator: I'm doing something important.";;
  writeOriginator this (MkOriginator (generateRandomString 30 draw));;
  obj ← readOriginator this;
  log ("Originator: and my state has changed to: " +:+ o_state obj).

Definition save (this : ref) : Comp ref :=
  obj ← readOriginator this;
  ConcreteMemento.new (o_state obj).

Definition restore (this : ref) (memento : ref) : Comp unit :=
  state ← ConcreteMemento.getState memento;
  writeOriginator this (MkOriginator state);;
  obj ← readOriginator this;
  log ("Originator: My state has changed to: " +:+ o_state obj).

End Originator.

(** ** Caretaker *)

Module Caretaker.

(** [constructor(originator)]; [mementos] starts as [[]]. *)
Definition new (originator : ref) : Comp ref :=
  allocCaretaker (MkCaretaker [] originator).

(** [this.mementos.push(m)]. *)
Definition push (this : ref) (m : ref) : Comp unit :=
  obj ← readCaretaker this;
  writeCaretaker this (MkCaretaker (c_mementos obj ++ [m]) (c_originator obj)).

(** [this.mementos.pop()]: the last element, removed from the array;
    [undefined] (here [None]) on an empty array, which stays empty. *)
Definition pop (this : ref) : Comp (option ref) :=
  obj ← readCaretaker this;
  match last (c_mementos obj) with
  | None => mret None
  | Some m =>
      writeCaretaker this
        (MkCaretaker (removelast (c_mementos obj)) (c_originator obj));;
      mret (Some m)
  end.

Definition backup (this : ref) : Comp unit :=
  log (Js.LF +:+ "Caretaker: Saving Originator's state...");;
  obj ← readCaretaker this;
  m ← Originator.save (c_originator obj);
  push this m.

Definition undo (this : ref) : Comp unit :=
  obj ← readCaretaker this;
  if Nat.eqb (length (c_mementos obj)) 0 then mret tt
  else
    popped ← pop this;
    match popped with
    | None => mthrow JsError
    | Some memento =>
        name ← ConcreteMemento.getName memento;
        log ("Caretaker: Restoring state to: " +:+ name);;
        Originator.restore (c_originator obj) memento
    end.

Definition showHistory (this : ref) : Comp unit :=
  log "Caretaker: Here's the list of mementos:";;
  obj ← readCaretaker this;
  forOf (c_mementos obj)
    (λ memento, name ← ConcreteMemento.getName memento; log name).

End Caretaker.

(** ** The client code at the end of the file *)

Definition emptyWorld (iso : string) : World :=
  MkWorld ∅ ∅ ∅ [] iso.

Definition client (d1 d2 d3 : nat → nat) : Comp unit :=
  originator ← Originator.new "Super-duper-super-puper-super.";
  caretaker ← Caretaker.new originator;
  Caretaker.backup caretaker;;
  Originator.doSomething originator d1;;
  Caretaker.backup caretaker;;
  Originator.doSomething originator d2;;
  Caretaker.backup caretaker;;
  Originator.doSomething originator d3;;
  log "";;
  Caretaker.showHistory caretaker;;
  log (Js.LF +:+ "Client: Now, let's rollback!" +:+ Js.LF);;
  Caretaker.undo caretaker;;
  log (Js.LF +:+ "Client: Once more!" +:+ Js.LF);;
  Caretaker.undo caretaker.

(** ** What a client calls, and programs of such calls *)

Inductive Call : Type :=
| NewOriginator (state : string)
| DoSomething (o : ref) (draw : nat → nat)
| Save (o : ref)
| Restore (o m : ref)
| NewMemento (state : string)
| GetState (m : ref)
| GetName (m : ref)
| GetDate (m : ref)
| NewCaretaker (o : ref)
| Backup (c : ref)
| Undo (c : ref)
| ShowHistory (c : ref)
| Tick (iso : string).   (* time passes: the clock now reads [iso] *)

(** Runs [m] and drops its value. *)
Definition void {A : Type} (m : Comp A) : Comp unit := m ;; mret tt.

Definition tick (iso : string) : Comp unit := λ w,
  (Normal tt,
   MkWorld (originators w) (snapshots w) (caretakers w) (console w) iso).

Definition call (k : Call) : Comp unit :=
  match k with
  | NewOriginator state => void (Originator.new state)
  | DoSomething o draw => Originator.doSomething o draw
  | Save o => void (Originator.save o)
  | Restore o m => Originator.restore o m
  | NewMemento state => void (ConcreteMemento.new state)
  | GetState m => void (ConcreteMemento.getState m)
  | GetName m => void (ConcreteMemento.getName m)
  | GetDate m => void (ConcreteMemento.getDate m)
  | NewCaretaker o => void (Caretaker.new o)
  | Backup c => Caretaker.backup c
  | Undo c => Caretaker.undo c
  | ShowHistory c => Caretaker.showHistory c
  | Tick iso => tick iso
  end.

(** A program is a sequence of calls; an uncaught [throw] ends it. *)
Definition exec (prog : list Call) : Comp unit := forOf prog call.

(** ** Observations *)

(** The value an [Originator] holds. *)
Definition value_of (o : ref) (w : World) : option string :=
  o_state <$> originators w !! o.

(** The values captured in a list of mementos. *)
Definition states_of (ms : list ref) (w : World) : option (list string) :=
  mapM (λ m, m_state <$> snapshots w !! m) ms.

(** The values on a [Caretaker]'s stack, oldest first. *)
Definition history_of (c : ref) (w : World) : option (list string) :=
  caretakers w !! c ≫= λ obj, states_of (c_mementos obj) w.

(** The [Originator] a [Caretaker] is bound to. *)
Definition originator_of (c : ref) (w : World) : option ref :=
  c_originator <$> caretakers w !! c.

(** [Session w c o v hs]: in [w], caretaker [c] is bound to originator
    [o], which holds [v], and the stack of [c] holds live mementos whose
    captured values are [hs], oldest first. *)
Definition Session (w : World) (c o : ref) (v : string) (hs : list string) : Prop :=
  originator_of c w = Some o ∧ value_of o w = Some v ∧ history_of c w = Some hs.

(** The lines a computation prints. *)
Definition printed {A : Type} (m : Comp A) (w : World) : list string :=
  drop (length (console w)) (console (m w).2).

(** ** Predicates of the statements *)

(** Memento [m] is live in [w] and captured the value [s]. *)
Definition captured (w : World) (m : ref) (s : string) : Prop :=
  ∃ mo, snapshots w !! m = Some mo ∧ m_state mo = s.

(** [f] leaves every live memento as it is (it may allocate new ones). *)
Definition keeps_snapshots {A : Type} (f : Comp A) : Prop :=
  ∀ w, snapshots w ⊆ snapshots (f w).2.

(** The labels of the mementos on a caretaker's stack, in the order of
    the array: [push] appends, so the oldest comes first. *)
Definition labels_of (c : ref) (w : World) : option (list string) :=
  caretakers w !! c ≫= λ obj,
    mapM (λ m, ConcreteMemento.name_of <$> snapshots w !! m) (c_mementos obj).

Definition historyHeader : string := "Caretaker: Here's the list of mementos:".

(** What a caller holding only the two metadata getters computes from
    them: the label without the date, the [" / ("] after it and the
    ["...)"] at its end. *)
Definition recover (date name : string) : string :=
  Js.substr (String.length date + 4)
    (String.length name - String.length date - 8) name.

(** ** Programs of captures, mutations and undos *)

(** The value [doSomething] stores under the draws [draw]. *)
Definition mutated (draw : nat → nat) : string :=
  Originator.generateRandomString 30 draw.

(** [n] rounds of [caretaker.backup(); originator.doSomething()], the
    order of the client code and of the comment on [doSomething]. *)
Fixpoint captureThenMutate (c o : ref) (draws : list (nat → nat)) : list Call :=
  match draws with
  | [] => []
  | d :: ds => Backup c :: DoSomething o d :: captureThenMutate c o ds
  end.

(** [n] rounds of [originator.doSomething(); caretaker.backup()]. *)
Fixpoint mutateThenCapture (c o : ref) (draws : list (nat → nat)) : list Call :=
  match draws with
  | [] => []
  | d :: ds => DoSomething o d :: Backup c :: mutateThenCapture c o ds
  end.

(** Some calls of [originator.doSomething()] in a row. *)
Definition mutations (o : ref) (draws : list (nat → nat)) : list Call :=
  DoSomething o <$> draws.

(** [n] calls of [caretaker.undo()]. *)
Definition undos (c : ref) (n : nat) : list Call := replicate n (Undo c).

(** The value held after the mutations [draws], from [v]. *)
Definition finalValue (v : string) (draws : list (nat → nat)) : string :=
  default v (last (mutated <$> draws)).

(** The values captured when each capture comes before its mutation. *)
Definition capturedBefore (v : string) (draws : list (nat → nat)) : list string :=
  take (length draws) (v :: (mutated <$> draws)).

(** The public methods of [Caretaker]: there are these three. *)
Inductive CaretakerMethod : Type :=
| Mbackup
| Mundo
| MshowHistory.

Definition invoke (c : ref) (meth : CaretakerMethod) : Call :=
  match meth with
  | Mbackup => Backup c
  | Mundo => Undo c
  | MshowHistory => ShowHistory c
  end.

(** ** Concrete worlds *)

(** An originator holding ["A"] (reference 1) and a caretaker bound to
    it (reference 1 of its own store), nothing captured yet. *)
Definition demo : World :=
  ((Originator.new "A" ≫= Caretaker.new) (emptyWorld "2026-11-01T10:20:30.123Z")).2.

(** Draws that make [doSomething] store ["b"], ["c"] and ["d"]. *)
Definition draw_b : nat → nat := λ _, 1.
Definition draw_c : nat → nat := λ _, 2.
Definition draw_d : nat → nat := λ _, 3.

(** One capture of ["A"] and a mutation to ["b"], from [demo]. *)
Definition demo1 : World :=
  (exec (captureThenMutate 1 1 [draw_b]) demo).2.

(** Two rounds of capture-then-mutate from [demo]: ["A"] was captured
    first, ["b"] second. *)
Definition demo2 : World :=
  (exec (captureThenMutate 1 1 [draw_b; draw_c]) demo).2.

(** Two originators, ["A"] at reference 1 and ["B"] at reference 2. *)
Definition twoOwners : World :=
  ((Originator.new "A" ;; Originator.new "B")
     (emptyWorld "2026-11-01T10:20:30.123Z")).2.

(** [demo] after [originator.save()]: memento 1 holds ["A"]. *)
Definition demoSaved : World := (Originator.save 1 demo).2.

(** The originator and caretaker of the client code, with the first
    capture made: memento 1 holds the thirty characters of the initial
    state. *)
Definition clientSaved : World :=
  ((originator ← Originator.new "Super-duper-super-puper-super.";
    caretaker ← Caretaker.new originator;
    Caretaker.backup caretaker)
     (emptyWorld "2026-11-01T10:20:30.123Z")).2.

(** ** Well-formed worlds and invariants of programs *)

(** A world is well formed when every caretaker refers to live objects:
    its originator is in the store and so is every memento of its
    array.  The worlds a JavaScript program reaches are of this kind. *)
Definition wf (w : World) : Prop :=
  ∀ c co, caretakers w !! c = Some co →
    is_Some (originators w !! c_originator co)
    ∧ Forall (λ m, is_Some (snapshots w !! m)) (c_mementos co).

(** The objects a call is made on are live. *)
Definition live (k : Call) (w : World) : Prop :=
  match k with
  | NewOriginator _ | NewMemento _ | Tick _ => True
  | DoSomething o _ | Save o | NewCaretaker o => is_Some (originators w !! o)
  | Restore o m => is_Some (originators w !! o) ∧ is_Some (snapshots w !! m)
  | GetState m | GetName m | GetDate m => is_Some (snapshots w !! m)
  | Backup c | Undo c | ShowHistory c => is_Some (caretakers w !! c)
  end.

(** Every call of the program is made on objects that are live when it
    is made (objects the program itself created before included). *)
Fixpoint admissible (prog : list Call) (w : World) : Prop :=
  match prog with
  | [] => True
  | k :: prog' => live k w ∧ admissible prog' (call k w).2
  end.

(** [f] relates every world to the world it leaves, by [R]. *)
Definition stable (R : relation World) {A : Type} (f : Comp A) : Prop :=
  ∀ w, R w (f w).2.

(** No originator disappears. *)
Definition originators_persist : relation World :=
  λ w w', dom (originators w) ⊆ dom (originators w').

(** No caretaker disappears or changes the originator it is bound to. *)
Definition bindings_persist : relation World :=
  λ w w', ∀ c o, originator_of c w = Some o → originator_of c w' = Some o.

(** No caretaker but [c] has changed, and none was created. *)
Definition other_caretakers_kept (c : ref) : relation World :=
  λ w w', ∀ c', c' ≠ c → caretakers w' !! c' = caretakers w !! c'.

(** No originator but [o] has changed, and none was created. *)
Definition other_originators_kept (o : ref) : relation World :=
  λ w w', ∀ o', o' ≠ o → originators w' !! o' = originators w !! o'.

(** The store of caretakers is as it was. *)
Definition caretakers_kept : relation World :=
  λ w w', caretakers w' = caretakers w.

(** [f] does not throw the [Error] of [undo]. *)
Definition quiet {A : Type} (f : Comp A) : Prop :=
  ∀ w, (f w).1 ≠ Thrown JsError.


(** [new Originator(state)] and then [new Caretaker(originator)]. *)
Definition newSession (state : string) : Comp (ref * ref) :=
  originator ← Originator.new state;
  caretaker ← Caretaker.new originator;
  mret (originator, caretaker).

(** ["A"] was captured, then ["b"]; the originator holds ["c"]; a second
    caretaker (reference 2) is bound to the same originator and has
    captured ["c"]. *)
Definition twoCaretakers : World :=
  (exec [NewCaretaker 1; Backup 2] demo2).2.

(** * The model on the file's own run *)

Example mutated_draw_b : mutated draw_b = "b".
Proof. reflexivity. Qed.

Example stamp_of_clock :
  ConcreteMemento.stamp "2026-11-01T10:20:30.123Z" = "2026-11-01 10:20:30".
Proof. reflexivity. Qed.

(** [charAt] past the end is the empty string, [substr] stops at the
    end, [replace] touches the first occurrence only. *)
Example js_strings :
  Js.charAt 52 Originator.charSet = ""
  ∧ Js.substr 0 9 "abc" = "abc"
  ∧ Js.replace "T" " " "aTbTc" = "a bTc".
Proof. by vm_compute. Qed.

(** The client code returns normally and prints what the file prints,
    with the draws ["b"], ["c"], ["d"]: the listing is oldest first and
    the two undos restore ["c"], then ["b"]. *)
Example client_run :
  let run := client draw_b draw_c draw_d (emptyWorld "2026-11-01T10:20:30.123Z") in
  run.1 = Normal tt
  ∧ console run.2 =
      ["Originator: My initial state is: Super-duper-super-puper-super.";
       Js.LF +:+ "Caretaker: Saving Originator's state...";
       "Originator: I'm doing something important.";
       "Originator: and my state has changed to: b";
       Js.LF +:+ "Caretaker: Saving Originator's state...";
       "Originator: I'm doing something important.";
       "Originator: and my state has changed to: c";
       Js.LF +:+ "Caretaker: Saving Originator's state...";
       "Originator: I'm doing something important.";
       "Originator: and my state has changed to: d";
       "";
       "Caretaker: Here's the list of mementos:";
       "2026-11-01 10:20:30 / (Super-dup...)";
       "2026-11-01 10:20:30 / (b...)";
       "2026-11-01 10:20:30 / (c...)";
       Js.LF +:+ "Client: Now, let's rollback!" +:+ Js.LF;
       "Caretaker: Restoring state to: 2026-11-01 10:20:30 / (c...)";
       "Originator: My state has changed to: c";
       Js.LF +:+ "Client: Once more!" +:+ Js.LF;
       "Caretaker: Restoring state to: 2026-11-01 10:20:30 / (b...)";
       "Originator: My state has changed to: b"]
  ∧ value_of 1 run.2 = Some "b"
  ∧ history_of 1 run.2 = Some ["Super-duper-super-puper-super."].
Proof. by vm_compute. Qed.

(** * Evaluation lemmas *)

Ltac comp_unfold :=
  unfold call, void, exec, tick,
    Caretaker.showHistory, Caretaker.undo, Caretaker.backup, Caretaker.pop,
    Caretaker.push, Caretaker.new,
    Originator.restore, Originator.save, Originator.doSomething, Originator.new,
    ConcreteMemento.getDate, ConcreteMemento.getName, ConcreteMemento.getState,
    ConcreteMemento.new,
    readOriginator, writeOriginator, allocOriginator, readMemento, allocMemento,
    readCaretaker, writeCaretaker, allocCaretaker, log, now,
    mbind, mret, mthrow, Comp_bind, Comp_ret, Comp_throw.

Ltac comp_simpl :=
  cbn [originators snapshots caretakers console clock fst snd
       o_state m_state m_date c_mementos c_originator].

(** Rewrites with the lookups that are known, in the goal. *)
Ltac comp_lookup :=
  repeat match goal with
         | H : _ !! _ = Some _ |- _ => rewrite H
         | |- context [<[?k := _]> _ !! ?k] => rewrite lookup_insert_eq
         end.

Ltac comp_run := comp_unfold; comp_simpl; repeat (progress (comp_lookup; comp_simpl)).

Section Evaluation.
Implicit Types (w : World) (o m c : ref).

Lemma bind_normal {A B} (f : Comp A) (k : A → Comp B) w a w' :
  f w = (Normal a, w') → (f ≫= k) w = k a w'.
Proof. intros H. unfold mbind, Comp_bind. by rewrite H. Qed.

Lemma bind_thrown {A B} (f : Comp A) (k : A → Comp B) w e w' :
  f w = (Thrown e, w') → (f ≫= k) w = (Thrown e, w').
Proof. intros H. unfold mbind, Comp_bind. by rewrite H. Qed.

Lemma forOf_app {A} (xs ys : list A) (body : A → Comp unit) w w' :
  forOf xs body w = (Normal tt, w') →
  forOf (xs ++ ys) body w = forOf ys body w'.
Proof.
  revert w. induction xs as [|x xs IH]; intros w; cbn [forOf app].
  - unfold mret, Comp_ret. by intros [= ->].
  - unfold mbind, Comp_bind. destruct (body x w) as [[[]|e] w1]; [|done].
    apply IH.
Qed.

Lemma exec_app p q w w' :
  exec p w = (Normal tt, w') → exec (p ++ q) w = exec q w'.
Proof. apply forOf_app. Qed.

Lemma exec_cons k p w w' :
  call k w = (Normal tt, w') → exec (k :: p) w = exec p w'.
Proof. intros H. unfold exec. cbn [forOf]. by rewrite (bind_normal _ _ _ _ _ H). Qed.

Lemma exec_nil w : exec [] w = (Normal tt, w).
Proof. reflexivity. Qed.

Lemma getState_spec w m mo :
  snapshots w !! m = Some mo →
  ConcreteMemento.getState m w = (Normal (m_state mo), w).
Proof. intros Hm. by comp_run. Qed.

Lemma getName_spec w m mo :
  snapshots w !! m = Some mo →
  ConcreteMemento.getName m w = (Normal (ConcreteMemento.name_of mo), w).
Proof. intros Hm. by comp_run. Qed.

Lemma getDate_spec w m mo :
  snapshots w !! m = Some mo →
  ConcreteMemento.getDate m w = (Normal (m_date mo), w).
Proof. intros Hm. by comp_run. Qed.

(** [new ConcreteMemento(state)] allocates at a reference that was free. *)
Lemma newMemento_spec w state :
  ConcreteMemento.new state w =
    (Normal (fresh (dom (snapshots w))),
     MkWorld (originators w)
       (<[fresh (dom (snapshots w)) :=
            MkMemento state (ConcreteMemento.stamp (clock w))]> (snapshots w))
       (caretakers w) (console w) (clock w)).
Proof. reflexivity. Qed.

Lemma save_spec w o oo :
  originators w !! o = Some oo →
  Originator.save o w =
    (Normal (fresh (dom (snapshots w))),
     MkWorld (originators w)
       (<[fresh (dom (snapshots w)) :=
            MkMemento (o_state oo) (ConcreteMemento.stamp (clock w))]> (snapshots w))
       (caretakers w) (console w) (clock w)).
Proof. intros Ho. by comp_run. Qed.

Lemma restore_spec w o m oo mo :
  originators w !! o = Some oo → snapshots w !! m = Some mo →
  Originator.restore o m w =
    (Normal tt,
     MkWorld (<[o := MkOriginator (m_state mo)]> (originators w)) (snapshots w)
       (caretakers w)
       (console w ++ ["Originator: My state has changed to: " +:+ m_state mo])
       (clock w)).
Proof. intros Ho Hm. by comp_run. Qed.

Lemma doSomething_spec w o oo draw :
  originators w !! o = Some oo →
  Originator.doSomething o draw w =
    (Normal tt,
     MkWorld
       (<[o := MkOriginator (Originator.generateRandomString 30 draw)]> (originators w))
       (snapshots w) (caretakers w)
       (console w ++
          ["Originator: I'm doing something important.";
           "Originator: and my state has changed to: " +:+
             Originator.generateRandomString 30 draw])
       (clock w)).
Proof. intros Ho. comp_run. by rewrite <- app_assoc. Qed.

Lemma backup_spec w c co oo :
  caretakers w !! c = Some co →
  originators w !! c_originator co = Some oo →
  Caretaker.backup c w =
    (Normal tt,
     MkWorld (originators w)
       (<[fresh (dom (snapshots w)) :=
            MkMemento (o_state oo) (ConcreteMemento.stamp (clock w))]> (snapshots w))
       (<[c := MkCaretaker (c_mementos co ++ [fresh (dom (snapshots w))])
                 (c_originator co)]> (caretakers w))
       (console w ++ [Js.LF +:+ "Caretaker: Saving Originator's state..."])
       (clock w)).
Proof. intros Hc Ho. by comp_run. Qed.

(** [undo] on an empty stack: the guard returns at once. *)
Lemma undo_empty_spec w c co :
  caretakers w !! c = Some co → c_mementos co = [] →
  Caretaker.undo c w = (Normal tt, w).
Proof. intros Hc He. comp_run. by rewrite He. Qed.

Lemma undo_spec w c ms m o oo mo :
  caretakers w !! c = Some (MkCaretaker (ms ++ [m]) o) →
  originators w !! o = Some oo →
  snapshots w !! m = Some mo →
  Caretaker.undo c w =
    (Normal tt,
     MkWorld (<[o := MkOriginator (m_state mo)]> (originators w)) (snapshots w)
       (<[c := MkCaretaker ms o]> (caretakers w))
       (console w ++
          ["Caretaker: Restoring state to: " +:+ ConcreteMemento.name_of mo;
           "Originator: My state has changed to: " +:+ m_state mo])
       (clock w)).
Proof.
  intros Hc Ho Hm. comp_run.
  rewrite length_app, Nat.add_1_r. cbn [Nat.eqb]. comp_run.
  rewrite last_snoc, removelast_last. comp_run.
  by rewrite <- app_assoc.
Qed.

End Evaluation.

(** * Sessions: one caretaker bound to one originator *)

Section Sessions.
Implicit Types (w : World) (o m c : ref) (v : string) (hs : list string).

Lemma states_of_captured w ms hs :
  states_of ms w = Some hs ↔ Forall2 (captured w) ms hs.
Proof.
  unfold states_of. rewrite mapM_Some.
  split; intros H; (eapply Forall2_impl; [exact H|]); intros m s;
    unfold captured; rewrite fmap_Some.
  - intros (mo & ? & ?). by exists mo.
  - intros (mo & ? & ?). by exists mo.
Qed.

Lemma Session_inv w c o v hs :
  Session w c o v hs →
  ∃ ms, caretakers w !! c = Some (MkCaretaker ms o)
        ∧ originators w !! o = Some (MkOriginator v)
        ∧ Forall2 (captured w) ms hs.
Proof.
  unfold Session, originator_of, value_of, history_of.
  intros (Ho & Hv & Hh).
  destruct (caretakers w !! c) as [[ms o']|] eqn:Hc; [|done].
  cbn in Ho, Hh. injection Ho as ->.
  destruct (originators w !! o) as [[v']|] eqn:Hoo; [|done].
  cbn in Hv. injection Hv as ->.
  exists ms. by rewrite <- states_of_captured.
Qed.

Lemma Session_intro w c o v hs ms :
  caretakers w !! c = Some (MkCaretaker ms o) →
  originators w !! o = Some (MkOriginator v) →
  Forall2 (captured w) ms hs →
  Session w c o v hs.
Proof.
  intros Hc Ho Hms. unfold Session, originator_of, value_of, history_of.
  rewrite Hc, Ho. split_and!; [done..|].
  by apply (proj2 (states_of_captured w ms hs)).
Qed.

(** Allocating a memento keeps what the live ones captured. *)
Lemma captured_alloc w (snaps : gmap positive MementoObj) mo m s os cs out clk :
  snaps = snapshots w →
  captured w m s →
  captured (MkWorld os (<[fresh (dom snaps) := mo]> snaps) cs out clk) m s.
Proof.
  intros -> (mo' & Hm & Hs). exists mo'. split; [|done]. comp_simpl.
  rewrite lookup_insert_ne; [done|].
  intros <-. apply (is_fresh (dom (snapshots w))).
  apply elem_of_dom. by eexists.
Qed.

Lemma backup_session w c o v hs :
  Session w c o v hs →
  ∃ w', Caretaker.backup c w = (Normal tt, w') ∧ Session w' c o v (hs ++ [v]).
Proof.
  intros (ms & Hc & Ho & Hms)%Session_inv.
  eexists. split; [by eapply backup_spec|].
  comp_simpl. eapply Session_intro; comp_simpl.
  - apply lookup_insert_eq.
  - done.
  - apply Forall2_app.
    + eapply Forall2_impl; [done|]. intros m s Hm. by apply (captured_alloc w).
    + constructor; [|constructor]. eexists. split; [apply lookup_insert_eq|done].
Qed.

Lemma doSomething_session w c o v hs draw :
  Session w c o v hs →
  ∃ w', Originator.doSomething o draw w = (Normal tt, w')
        ∧ Session w' c o (Originator.generateRandomString 30 draw) hs.
Proof.
  intros (ms & Hc & Ho & Hms)%Session_inv.
  eexists. split; [by eapply doSomething_spec|].
  eapply Session_intro; comp_simpl; [done|apply lookup_insert_eq|done].
Qed.

Lemma undo_session w c o v hs x :
  Session w c o v (hs ++ [x]) →
  ∃ w', Caretaker.undo c w = (Normal tt, w') ∧ Session w' c o x hs.
Proof.
  intros (ms & Hc & Ho & Hms)%Session_inv.
  apply Forall2_app_inv_r in Hms as (ms' & ml & Hms' & Hl & ->).
  apply Forall2_cons_inv_r in Hl as (m & ? & (mo & Hm & <-) & ->%Forall2_nil_inv_r & ->).
  eexists. split; [by eapply undo_spec|].
  eapply Session_intro; comp_simpl; [apply lookup_insert_eq..|done].
Qed.

Lemma undo_session_empty w c o v :
  Session w c o v [] → Caretaker.undo c w = (Normal tt, w).
Proof.
  intros (ms & Hc & Ho & ->%Forall2_nil_inv_r)%Session_inv.
  by eapply undo_empty_spec.
Qed.

Lemma Session_value w c o v hs : Session w c o v hs → value_of o w = Some v.
Proof. by intros (_ & ? & _). Qed.

Lemma Session_history w c o v hs : Session w c o v hs → history_of c w = Some hs.
Proof. by intros (_ & _ & ?). Qed.

End Sessions.

(** * Running the programs *)

Section Programs.
Implicit Types (w : World) (o m c : ref) (v : string) (hs : list string).
Implicit Types (draws : list (nat → nat)).

Lemma finalValue_cons v d draws :
  finalValue v (d :: draws) = finalValue (mutated d) draws.
Proof.
  unfold finalValue. cbn [fmap list_fmap]. rewrite last_cons.
  by destruct (last _).
Qed.

Lemma capturedBefore_cons v d draws :
  capturedBefore v (d :: draws) = v :: capturedBefore (mutated d) draws.
Proof. reflexivity. Qed.

Lemma length_capturedBefore v draws :
  length (capturedBefore v draws) = length draws.
Proof.
  unfold capturedBefore. rewrite length_take. cbn [length].
  rewrite length_fmap. lia.
Qed.

Lemma run_captureThenMutate draws : ∀ w c o v hs,
  Session w c o v hs →
  ∃ w', exec (captureThenMutate c o draws) w = (Normal tt, w')
        ∧ Session w' c o (finalValue v draws) (hs ++ capturedBefore v draws).
Proof.
  induction draws as [|d ds IH]; intros w c o v hs HS.
  - exists w. rewrite app_nil_r. by split.
  - destruct (backup_session _ _ _ _ _ HS) as (w1 & E1 & HS1).
    destruct (doSomething_session _ _ _ _ _ d HS1) as (w2 & E2 & HS2).
    destruct (IH _ _ _ _ _ HS2) as (w3 & E3 & HS3).
    exists w3. split.
    + cbn [captureThenMutate].
      by rewrite (exec_cons (Backup c) _ _ _ E1),
           (exec_cons (DoSomething o d) _ _ _ E2).
    + rewrite finalValue_cons, capturedBefore_cons.
      by rewrite <- app_assoc in HS3.
Qed.

Lemma run_mutateThenCapture draws : ∀ w c o v hs,
  Session w c o v hs →
  ∃ w', exec (mutateThenCapture c o draws) w = (Normal tt, w')
        ∧ Session w' c o (finalValue v draws) (hs ++ (mutated <$> draws)).
Proof.
  induction draws as [|d ds IH]; intros w c o v hs HS.
  - exists w. rewrite app_nil_r. by split.
  - destruct (doSomething_session _ _ _ _ _ d HS) as (w1 & E1 & HS1).
    destruct (backup_session _ _ _ _ _ HS1) as (w2 & E2 & HS2).
    destruct (IH _ _ _ _ _ HS2) as (w3 & E3 & HS3).
    exists w3. split.
    + cbn [mutateThenCapture].
      by rewrite (exec_cons (DoSomething o d) _ _ _ E1),
           (exec_cons (Backup c) _ _ _ E2).
    + rewrite finalValue_cons. cbn [fmap list_fmap].
      by rewrite <- app_assoc in HS3.
Qed.

Lemma run_mutations draws : ∀ w c o v hs,
  Session w c o v hs →
  ∃ w', exec (mutations o draws) w = (Normal tt, w')
        ∧ Session w' c o (finalValue v draws) hs.
Proof.
  induction draws as [|d ds IH]; intros w c o v hs HS.
  - exists w. by split.
  - destruct (doSomething_session _ _ _ _ _ d HS) as (w1 & E1 & HS1).
    destruct (IH _ _ _ _ _ HS1) as (w2 & E2 & HS2).
    exists w2. rewrite finalValue_cons. split; [|done].
    unfold mutations. cbn [fmap list_fmap].
    by rewrite (exec_cons (DoSomething o d) _ _ _ E1).
Qed.

Lemma run_backup w c o v hs :
  Session w c o v hs →
  ∃ w', exec [Backup c] w = (Normal tt, w') ∧ Session w' c o v (hs ++ [v]).
Proof.
  intros HS. destruct (backup_session _ _ _ _ _ HS) as (w1 & E1 & HS1).
  exists w1. split; [|done]. by rewrite (exec_cons (Backup c) _ _ _ E1).
Qed.

(** Three undos take the three entries on top, the last one first. *)
Lemma undo_three_times w c o v hs s1 s2 s3 :
  Session w c o v (hs ++ [s1; s2; s3]) →
  ∃ w1 w2 w3,
    Caretaker.undo c w = (Normal tt, w1) ∧ value_of o w1 = Some s3
    ∧ Caretaker.undo c w1 = (Normal tt, w2) ∧ value_of o w2 = Some s2
    ∧ Caretaker.undo c w2 = (Normal tt, w3) ∧ value_of o w3 = Some s1
    ∧ history_of c w3 = Some hs.
Proof.
  intros HS.
  replace (hs ++ [s1; s2; s3]) with (((hs ++ [s1]) ++ [s2]) ++ [s3]) in HS
    by (by rewrite <- !app_assoc).
  destruct (undo_session _ _ _ _ _ _ HS) as (w1 & E1 & HS1).
  destruct (undo_session _ _ _ _ _ _ HS1) as (w2 & E2 & HS2).
  destruct (undo_session _ _ _ _ _ _ HS2) as (w3 & E3 & HS3).
  exists w1, w2, w3.
  split_and!; try done; by (eapply Session_value || eapply Session_history).
Qed.

(** As many undos as there are entries above [x] and one more make
    [x] the value, and leave what was below [x]. *)
Lemma run_undos hs2 : ∀ w c o v hs1 x,
  Session w c o v (hs1 ++ x :: hs2) →
  ∃ w', exec (undos c (S (length hs2))) w = (Normal tt, w')
        ∧ Session w' c o x hs1.
Proof.
  induction hs2 as [|y hs2 IH] using rev_ind; intros w c o v hs1 x HS.
  - destruct (undo_session _ _ _ _ _ _ HS) as (w1 & E1 & HS1).
    exists w1. split; [|done]. cbn [length undos replicate].
    by rewrite (exec_cons (Undo c) _ _ _ E1).
  - replace (hs1 ++ x :: hs2 ++ [y]) with ((hs1 ++ x :: hs2) ++ [y]) in HS
      by (by rewrite <- app_assoc).
    destruct (undo_session _ _ _ _ _ _ HS) as (w1 & E1 & HS1).
    destruct (IH _ _ _ _ _ _ HS1) as (w2 & E2 & HS2).
    exists w2. split; [|done].
    rewrite length_app, Nat.add_1_r. unfold undos in *.
    rewrite replicate_S. by rewrite (exec_cons (Undo c) _ _ _ E1).
Qed.

(** Undoing the whole stack leaves the oldest captured value, or the
    current one when nothing was captured. *)
Lemma run_undos_all w c o v hs :
  Session w c o v hs →
  ∃ w', exec (undos c (length hs)) w = (Normal tt, w')
        ∧ Session w' c o (default v (head hs)) [].
Proof.
  intros HS. destruct hs as [|x hs].
  - exists w. by split.
  - by apply (run_undos hs w c o v [] x).
Qed.

End Programs.

(** * Round trip, empty history, LIFO order *)

(** C1, as the code has it.  From a caretaker with an empty stack and an
    originator holding [v0]:
    - after [n] rounds of capture-then-mutate (the order the file asks
      of its clients), [n] undos bring the value back to [v0];
    - after [n] rounds of mutate-then-capture, [n] undos leave the value
      the first mutation produced ([v0] only when [n = 0]), for [v0] was
      never captured;
    - either way the stack is empty again, and one more undo returns
      normally, with no result to tell it from a success, and changes
      nothing. *)
Theorem round_trip w c o v0 draws :
  Session w c o v0 [] →
  (∃ w1,
      exec (captureThenMutate c o draws ++ undos c (length draws)) w = (Normal tt, w1)
      ∧ value_of o w1 = Some v0
      ∧ history_of c w1 = Some []
      ∧ Caretaker.undo c w1 = (Normal tt, w1))
  ∧ (∃ w2,
      exec (mutateThenCapture c o draws ++ undos c (length draws)) w = (Normal tt, w2)
      ∧ value_of o w2 = Some (default v0 (head (mutated <$> draws)))
      ∧ history_of c w2 = Some []
      ∧ Caretaker.undo c w2 = (Normal tt, w2)).
Proof.
  intros HS. split.
  - destruct (run_captureThenMutate draws _ _ _ _ _ HS) as (wa & Ea & HSa).
    cbn [app] in HSa.
    destruct (run_undos_all _ _ _ _ _ HSa) as (wb & Eb & HSb).
    rewrite length_capturedBefore in Eb.
    exists wb. rewrite (exec_app _ _ _ _ Ea), Eb.
    replace (default _ (head (capturedBefore v0 draws))) with v0 in HSb
      by (by destruct draws).
    split_and!; [done|by eapply Session_value|by eapply Session_history|].
    by eapply undo_session_empty.
  - destruct (run_mutateThenCapture draws _ _ _ _ _ HS) as (wa & Ea & HSa).
    cbn [app] in HSa.
    destruct (run_undos_all _ _ _ _ _ HSa) as (wb & Eb & HSb).
    rewrite length_fmap in Eb.
    exists wb. rewrite (exec_app _ _ _ _ Ea), Eb.
    replace (default (finalValue v0 draws) (head (mutated <$> draws)))
      with (default v0 (head (mutated <$> draws))) in HSb
      by (by destruct draws).
    split_and!; [done|by eapply Session_value|by eapply Session_history|].
    by eapply undo_session_empty.
Qed.

Lemma round_trip_witness :
  Session demo 1 1 "A" []
  ∧ (∃ w1,
      exec (captureThenMutate 1 1 [draw_b; draw_c] ++ undos 1 2) demo = (Normal tt, w1)
      ∧ value_of 1 w1 = Some "A"
      ∧ history_of 1 w1 = Some []
      ∧ Caretaker.undo 1 w1 = (Normal tt, w1))
  ∧ (∃ w2,
      exec (mutateThenCapture 1 1 [draw_b; draw_c] ++ undos 1 2) demo = (Normal tt, w2)
      ∧ value_of 1 w2 = Some "b"
      ∧ history_of 1 w2 = Some []
      ∧ Caretaker.undo 1 w2 = (Normal tt, w2)).
Proof.
  split; [by vm_compute|].
  apply (round_trip demo 1 1 "A" [draw_b; draw_c]). by vm_compute.
Defined.

(** C1 as the spec words it fails: one mutation to ["b"] followed by a
    capture, then one undo, leaves ["b"], not the initial ["A"]. *)
Lemma round_trip_mutate_first_fails :
  Session demo 1 1 "A" []
  ∧ value_of 1 (exec (mutateThenCapture 1 1 [draw_b] ++ undos 1 1) demo).2 = Some "b"
  ∧ value_of 1 (exec (mutateThenCapture 1 1 [draw_b] ++ undos 1 1) demo).2 ≠ Some "A".
Proof. split_and!; [by vm_compute..|]. vm_compute. discriminate. Qed.

(** C2, as the code has it.  [undo] on an empty stack returns normally
    at once, through the guard [if (!this.mementos.length) return]: the
    world it leaves is the world it found, so the stack, every
    originator's value and the console are as they were; the call
    yields no error and no value that tells it from a successful one. *)
Theorem undo_empty_history w c :
  history_of c w = Some [] →
  Caretaker.undo c w = (Normal tt, w) ∧ printed (Caretaker.undo c) w = [].
Proof.
  unfold history_of. intros H.
  destruct (caretakers w !! c) as [co|] eqn:Hc; [|done]. cbn in H.
  apply states_of_captured, Forall2_nil_inv_r in H.
  assert (E : Caretaker.undo c w = (Normal tt, w)) by by eapply undo_empty_spec.
  split; [done|]. unfold printed. rewrite E. cbn [snd]. apply drop_all.
Qed.

Lemma undo_empty_history_witness :
  history_of 1 demo = Some [] ∧
  Caretaker.undo 1 demo = (Normal tt, demo) ∧ printed (Caretaker.undo 1) demo = [].
Proof. split; [by vm_compute|]. apply (undo_empty_history demo 1). by vm_compute. Defined.

(** C2 as the spec words it fails: on the empty stack of [demo], [undo]
    does not fail and reports nothing; it is a silent success. *)
Lemma undo_empty_history_is_silent_success :
  history_of 1 demo = Some []
  ∧ (Caretaker.undo 1 demo).1 = Normal tt
  ∧ console (Caretaker.undo 1 demo).2 = console demo.
Proof. by vm_compute. Qed.

(** C3.  Three captures, with any mutations before, between and after
    them, put the values [s1], [s2], [s3] they capture on the stack in
    that order; three undos then restore [s3], then [s2], then [s1],
    and leave the stack as it was before the captures. *)
Theorem undo_lifo w c o v hs ds1 ds2 ds3 ds4 :
  Session w c o v hs →
  let s1 := finalValue v ds1 in
  let s2 := finalValue s1 ds2 in
  let s3 := finalValue s2 ds3 in
  ∃ w0,
    exec (mutations o ds1 ++ [Backup c] ++ mutations o ds2 ++ [Backup c]
          ++ mutations o ds3 ++ [Backup c] ++ mutations o ds4) w
      = (Normal tt, w0)
    ∧ history_of c w0 = Some (hs ++ [s1; s2; s3])
    ∧ ∃ w1 w2 w3,
        Caretaker.undo c w0 = (Normal tt, w1) ∧ value_of o w1 = Some s3
        ∧ Caretaker.undo c w1 = (Normal tt, w2) ∧ value_of o w2 = Some s2
        ∧ Caretaker.undo c w2 = (Normal tt, w3) ∧ value_of o w3 = Some s1
        ∧ history_of c w3 = Some hs.
Proof.
  intros HS s1 s2 s3.
  destruct (run_mutations ds1 _ _ _ _ _ HS) as (wa & Ea & HSa).
  destruct (run_backup _ _ _ _ _ HSa) as (wb & Eb & HSb).
  destruct (run_mutations ds2 _ _ _ _ _ HSb) as (wc & Ec & HSc).
  destruct (run_backup _ _ _ _ _ HSc) as (wd & Ed & HSd).
  destruct (run_mutations ds3 _ _ _ _ _ HSd) as (we & Ee & HSe).
  destruct (run_backup _ _ _ _ _ HSe) as (wf & Ef & HSf).
  destruct (run_mutations ds4 _ _ _ _ _ HSf) as (wg & Eg & HSg).
  fold s1 s2 s3 in HSg. rewrite <- !app_assoc in HSg. cbn [app] in HSg.
  exists wg. split_and!.
  - rewrite (exec_app _ _ _ _ Ea), (exec_app _ _ _ _ Eb), (exec_app _ _ _ _ Ec),
      (exec_app _ _ _ _ Ed), (exec_app _ _ _ _ Ee), (exec_app _ _ _ _ Ef).
    exact Eg.
  - by eapply Session_history.
  - by eapply undo_three_times.
Qed.

Lemma undo_lifo_witness :
  Session demo 1 1 "A" []
  ∧ ∃ w0,
    exec (mutations 1 [] ++ [Backup 1] ++ mutations 1 [draw_d; draw_b] ++ [Backup 1]
          ++ mutations 1 [draw_c] ++ [Backup 1] ++ mutations 1 [draw_d]) demo
      = (Normal tt, w0)
    ∧ history_of 1 w0 = Some ([] ++ ["A"; "b"; "c"])
    ∧ ∃ w1 w2 w3,
        Caretaker.undo 1 w0 = (Normal tt, w1) ∧ value_of 1 w1 = Some "c"
        ∧ Caretaker.undo 1 w1 = (Normal tt, w2) ∧ value_of 1 w2 = Some "b"
        ∧ Caretaker.undo 1 w2 = (Normal tt, w3) ∧ value_of 1 w3 = Some "A"
        ∧ history_of 1 w3 = Some [].
Proof.
  split; [by vm_compute|].
  apply (undo_lifo demo 1 1 "A" [] [] [draw_d; draw_b] [draw_c] [draw_d]).
  by vm_compute.
Defined.

(** * Restoring a memento made by another originator *)

(** C4, as the code has it.  A memento records no owner, and [restore]
    checks none: for any two originators [a] and [b], the same or not,
    restoring on [b] a memento saved from [a] returns normally and gives
    [b] the value [a] had at the capture; every other originator keeps
    its value. *)
Theorem restore_ignores_owner w a b va vb :
  value_of a w = Some va →
  value_of b w = Some vb →
  ∃ m w1 w2,
    Originator.save a w = (Normal m, w1)
    ∧ Originator.restore b m w1 = (Normal tt, w2)
    ∧ value_of b w2 = Some va
    ∧ ∀ o, o ≠ b → value_of o w2 = value_of o w.
Proof.
  unfold value_of. intros Ha Hb.
  destruct (originators w !! a) as [[va']|] eqn:Ea; [|done].
  destruct (originators w !! b) as [ob|] eqn:Eb; [|done].
  cbn in Ha. injection Ha as ->.
  eexists _, _, _. split; [by eapply save_spec|].
  split; [eapply restore_spec; comp_simpl; [done|apply lookup_insert_eq]|].
  comp_simpl. split; [by rewrite lookup_insert_eq|].
  intros o Hne. by rewrite lookup_insert_ne.
Qed.

Lemma restore_ignores_owner_witness :
  value_of 1 twoOwners = Some "A"
  ∧ value_of 2 twoOwners = Some "B"
  ∧ ∃ m w1 w2,
    Originator.save 1 twoOwners = (Normal m, w1)
    ∧ Originator.restore 2 m w1 = (Normal tt, w2)
    ∧ value_of 2 w2 = Some "A"
    ∧ ∀ o, o ≠ 2%positive → value_of o w2 = value_of o twoOwners.
Proof.
  split; [by vm_compute|]. split; [by vm_compute|].
  apply (restore_ignores_owner twoOwners 1 2 "A" "B"); by vm_compute.
Defined.

(** C4 as the spec words it fails: the memento of originator 1 is
    restored on the distinct originator 2 without any failure, and
    originator 2 goes from ["B"] to ["A"]. *)
Lemma foreign_snapshot_is_accepted :
  (1 ≠ 2)%positive
  ∧ value_of 2 twoOwners = Some "B"
  ∧ ((Originator.save 1 ≫= Originator.restore 2) twoOwners).1 = Normal tt
  ∧ value_of 2 ((Originator.save 1 ≫= Originator.restore 2) twoOwners).2 = Some "A".
Proof. by vm_compute. Qed.

(** * The history listing *)

Section Listing.
Implicit Types (w : World) (o m c : ref) (v : string) (hs : list string).

Lemma forOf_names (snaps : gmap positive MementoObj) ms ls :
  Forall2 (λ m l, ConcreteMemento.name_of <$> snaps !! m = Some l) ms ls →
  ∀ os cs out clk,
    forOf ms (λ memento, name ← ConcreteMemento.getName memento; log name)
      (MkWorld os snaps cs out clk)
    = (Normal tt, MkWorld os snaps cs (out ++ ls) clk).
Proof.
  induction 1 as [|m l ms ls Hm _ IH]; intros os cs out clk; cbn [forOf].
  - by rewrite app_nil_r.
  - apply fmap_Some in Hm as (mo & Hm & ->).
    rewrite (bind_normal _ _ _ tt
               (MkWorld os snaps cs (out ++ [ConcreteMemento.name_of mo]) clk)).
    + rewrite IH. by rewrite <- app_assoc.
    + by comp_run.
Qed.

Lemma showHistory_spec w c ls :
  labels_of c w = Some ls →
  Caretaker.showHistory c w =
    (Normal tt,
     MkWorld (originators w) (snapshots w) (caretakers w)
       (console w ++ historyHeader :: ls) (clock w)).
Proof.
  unfold labels_of. intros H.
  destruct (caretakers w !! c) as [co|] eqn:Hc; [|done]. cbn in H.
  apply mapM_Some in H.
  unfold Caretaker.showHistory.
  erewrite bind_normal; [|reflexivity].
  erewrite bind_normal; [|by comp_run].
  comp_simpl. rewrite (forOf_names _ _ _ H).
  by rewrite <- app_assoc.
Qed.

Lemma showHistory_session w c o v hs :
  Session w c o v hs →
  ∃ w', Caretaker.showHistory c w = (Normal tt, w') ∧ Session w' c o v hs.
Proof.
  intros HS. destruct (Session_inv _ _ _ _ _ HS) as (ms & Hc & Ho & Hms).
  assert (∃ ls, labels_of c w = Some ls) as [ls Hls].
  { unfold labels_of. rewrite Hc. cbn. apply mapM_is_Some.
    eapply Forall2_Forall_l; [done|]. apply Forall_true.
    intros s m (mo & Hm & _). unfold compose. rewrite Hm. by eexists. }
  eexists. split; [by apply showHistory_spec|].
  by eapply Session_intro.
Qed.

(** A capture puts its label behind the ones already listed. *)
Lemma backup_labels w c o v hs ls :
  Session w c o v hs → labels_of c w = Some ls →
  labels_of c (Caretaker.backup c w).2 =
    Some (ls ++ [ConcreteMemento.name_of
                   (MkMemento v (ConcreteMemento.stamp (clock w)))]).
Proof.
  intros (ms & Hc & Ho & Hms)%Session_inv. unfold labels_of.
  erewrite backup_spec by done. rewrite Hc. comp_simpl.
  rewrite lookup_insert_eq. cbn. intros Hls%mapM_Some.
  apply mapM_Some, Forall2_app.
  - eapply Forall2_impl; [done|]. intros m l Hm. comp_simpl.
    rewrite lookup_insert_ne; [done|].
    intros <-. apply fmap_Some in Hm as (mo & Hm & _).
    apply (is_fresh (dom (snapshots w))), elem_of_dom. by eexists.
  - constructor; [|constructor]. by rewrite lookup_insert_eq.
Qed.

End Listing.

(** C7, as the code has it.  [showHistory] prints its header and then
    the labels of the stack in the order of the array, that is from the
    oldest capture to the most recent; it changes the console only: the
    three stores, hence the stack and every originator's value, are as
    they were.  ([labels_of] lists the oldest first: a capture puts its
    label last.) *)
Theorem showHistory_oldest_first w c o v hs ls :
  Session w c o v hs →
  labels_of c w = Some ls →
  Caretaker.showHistory c w =
    (Normal tt,
     MkWorld (originators w) (snapshots w) (caretakers w)
       (console w ++ historyHeader :: ls) (clock w))
  ∧ labels_of c (Caretaker.backup c w).2 =
      Some (ls ++ [ConcreteMemento.name_of
                     (MkMemento v (ConcreteMemento.stamp (clock w)))]).
Proof.
  intros HS Hls. split; [by apply showHistory_spec|by eapply backup_labels].
Qed.

Lemma showHistory_oldest_first_witness :
  Session demo2 1 1 "c" ["A"; "b"]
  ∧ labels_of 1 demo2 =
      Some ["2026-11-01 10:20:30 / (A...)"; "2026-11-01 10:20:30 / (b...)"]
  ∧ Caretaker.showHistory 1 demo2 =
      (Normal tt,
       MkWorld (originators demo2) (snapshots demo2) (caretakers demo2)
         (console demo2 ++
            historyHeader ::
            ["2026-11-01 10:20:30 / (A...)"; "2026-11-01 10:20:30 / (b...)"])
         (clock demo2))
  ∧ labels_of 1 (Caretaker.backup 1 demo2).2 =
      Some (["2026-11-01 10:20:30 / (A...)"; "2026-11-01 10:20:30 / (b...)"] ++
            [ConcreteMemento.name_of
               (MkMemento "c" (ConcreteMemento.stamp (clock demo2)))]).
Proof.
  split; [by vm_compute|]. split; [by vm_compute|].
  apply (showHistory_oldest_first demo2 1 1 "c" ["A"; "b"]); by vm_compute.
Defined.

(** C7 as the spec words it fails: with ["A"] captured before ["b"],
    the listing prints the label of ["A"], the oldest, first. *)
Lemma showHistory_not_most_recent_first :
  history_of 1 demo2 = Some ["A"; "b"]
  ∧ printed (Caretaker.showHistory 1) demo2 =
      [historyHeader; "2026-11-01 10:20:30 / (A...)"; "2026-11-01 10:20:30 / (b...)"]
  ∧ printed (Caretaker.showHistory 1) demo2 ≠
      [historyHeader; "2026-11-01 10:20:30 / (b...)"; "2026-11-01 10:20:30 / (A...)"].
Proof. split_and!; [by vm_compute..|]. vm_compute. discriminate. Qed.

(** * What undo drops, and what captures keep *)

Section CaretakerOnly.
Implicit Types (w : World) (o m c : ref) (v : string) (hs : list string).



End CaretakerOnly.



(** X15.  [backup] only pushes: [n] rounds of capture and mutation
    make the stack [n] entries longer, above the entries it had, and
    every entry of the stack, the oldest included, is restored by as
    many undos as there are entries above it and one more. *)
Theorem history_is_unbounded w c o v hs draws :
  Session w c o v hs →
  ∃ w1,
    exec (captureThenMutate c o draws) w = (Normal tt, w1)
    ∧ history_of c w1 = Some (hs ++ capturedBefore v draws)
    ∧ length (hs ++ capturedBefore v draws) = length hs + length draws
    ∧ ∀ below x above,
        hs ++ capturedBefore v draws = below ++ x :: above →
        ∃ w2, exec (undos c (S (length above))) w1 = (Normal tt, w2)
              ∧ value_of o w2 = Some x
              ∧ history_of c w2 = Some below.
Proof.
  intros HS.
  destruct (run_captureThenMutate draws _ _ _ _ _ HS) as (w1 & E1 & HS1).
  exists w1. split_and!; [done|by eapply Session_history| |].
  - by rewrite length_app, length_capturedBefore.
  - intros below x above Heq. rewrite Heq in HS1.
    destruct (run_undos _ _ _ _ _ _ _ HS1) as (w2 & E2 & HS2).
    exists w2. split_and!; [done|by eapply Session_value|by eapply Session_history].
Qed.

Lemma history_is_unbounded_witness :
  Session demo 1 1 "A" []
  ∧ ∃ w1,
    exec (captureThenMutate 1 1 [draw_b; draw_c]) demo = (Normal tt, w1)
    ∧ history_of 1 w1 = Some ([] ++ capturedBefore "A" [draw_b; draw_c])
    ∧ length ([] ++ capturedBefore "A" [draw_b; draw_c]) = length (@nil string) + 2
    ∧ ∀ below x above,
        [] ++ capturedBefore "A" [draw_b; draw_c] = below ++ x :: above →
        ∃ w2, exec (undos 1 (S (length above))) w1 = (Normal tt, w2)
              ∧ value_of 1 w2 = Some x
              ∧ history_of 1 w2 = Some below.
Proof.
  split; [by vm_compute|].
  apply (history_is_unbounded demo 1 1 "A" [] [draw_b; draw_c]). by vm_compute.
Defined.

(** * Mementos never change *)

Create HintDb keeps.

Section Immutability.
Implicit Types (w : World) (o m c : ref).

Lemma keeps_ret {A} (a : A) : keeps_snapshots (mret a).
Proof. by intros w. Qed.

Lemma keeps_throw {A} (e : Exn) : keeps_snapshots (mthrow (A:=A) e).
Proof. by intros w. Qed.

Lemma keeps_bind {A B} (f : Comp A) (k : A → Comp B) :
  keeps_snapshots f → (∀ a, keeps_snapshots (k a)) → keeps_snapshots (f ≫= k).
Proof.
  intros Hf Hk w. unfold mbind, Comp_bind.
  specialize (Hf w). destruct (f w) as [[a|e] w1]; [|done].
  etrans; [exact Hf|apply Hk].
Qed.

Lemma keeps_log line : keeps_snapshots (log line).
Proof. by intros w. Qed.

Lemma keeps_now : keeps_snapshots now.
Proof. by intros w. Qed.

Lemma keeps_tick iso : keeps_snapshots (tick iso).
Proof. by intros w. Qed.

Lemma keeps_readOriginator o : keeps_snapshots (readOriginator o).
Proof. intros w. unfold readOriginator. by case_match. Qed.

Lemma keeps_writeOriginator o obj : keeps_snapshots (writeOriginator o obj).
Proof. intros w. unfold writeOriginator. by case_match. Qed.

Lemma keeps_allocOriginator obj : keeps_snapshots (allocOriginator obj).
Proof. by intros w. Qed.

Lemma keeps_readMemento m : keeps_snapshots (readMemento m).
Proof. intros w. unfold readMemento. by case_match. Qed.

(** The one place where the store of mementos changes: a new memento
    goes to a reference that held none. *)
Lemma keeps_allocMemento obj : keeps_snapshots (allocMemento obj).
Proof.
  intros w. unfold allocMemento. comp_simpl.
  apply insert_subseteq, not_elem_of_dom, is_fresh.
Qed.

Lemma keeps_readCaretaker c : keeps_snapshots (readCaretaker c).
Proof. intros w. unfold readCaretaker. by case_match. Qed.

Lemma keeps_writeCaretaker c obj : keeps_snapshots (writeCaretaker c obj).
Proof. intros w. unfold writeCaretaker. by case_match. Qed.

Lemma keeps_allocCaretaker obj : keeps_snapshots (allocCaretaker obj).
Proof. by intros w. Qed.

Lemma keeps_forOf {A} (xs : list A) (body : A → Comp unit) :
  (∀ x, keeps_snapshots (body x)) → keeps_snapshots (forOf xs body).
Proof.
  intros Hbody. induction xs as [|x xs IH]; cbn [forOf].
  - apply keeps_ret.
  - by apply keeps_bind.
Qed.

Hint Resolve keeps_ret keeps_throw keeps_bind keeps_log keeps_now keeps_tick
  keeps_readOriginator keeps_writeOriginator keeps_allocOriginator
  keeps_readMemento keeps_allocMemento keeps_readCaretaker
  keeps_writeCaretaker keeps_allocCaretaker keeps_forOf : keeps.

Lemma keeps_getName m : keeps_snapshots (ConcreteMemento.getName m).
Proof. unfold ConcreteMemento.getName. auto with keeps. Qed.

Lemma keeps_newMemento state : keeps_snapshots (ConcreteMemento.new state).
Proof. unfold ConcreteMemento.new. auto with keeps. Qed.

Lemma keeps_save o : keeps_snapshots (Originator.save o).
Proof. unfold Originator.save. auto using keeps_newMemento with keeps. Qed.

Lemma keeps_restore o m : keeps_snapshots (Originator.restore o m).
Proof.
  unfold Originator.restore, ConcreteMemento.getState. auto 7 with keeps.
Qed.

Lemma keeps_pop c : keeps_snapshots (Caretaker.pop c).
Proof.
  unfold Caretaker.pop. apply keeps_bind; [auto with keeps|].
  intros co. case_match; auto with keeps.
Qed.

Lemma keeps_undo c : keeps_snapshots (Caretaker.undo c).
Proof.
  unfold Caretaker.undo. apply keeps_bind; [auto with keeps|].
  intros co. case_match; [auto with keeps|].
  apply keeps_bind; [apply keeps_pop|].
  intros [m|]; auto using keeps_getName, keeps_restore with keeps.
Qed.

Lemma keeps_call k : keeps_snapshots (call k).
Proof.
  destruct k; cbn [call]; unfold void.
  - unfold Originator.new. auto 7 with keeps.
  - unfold Originator.doSomething. auto 7 with keeps.
  - auto using keeps_save with keeps.
  - apply keeps_restore.
  - auto using keeps_newMemento with keeps.
  - unfold ConcreteMemento.getState. auto 7 with keeps.
  - auto using keeps_getName with keeps.
  - unfold ConcreteMemento.getDate. auto 7 with keeps.
  - unfold Caretaker.new. auto with keeps.
  - unfold Caretaker.backup, Caretaker.push.
    auto 8 using keeps_save with keeps.
  - apply keeps_undo.
  - unfold Caretaker.showHistory. auto 8 using keeps_getName with keeps.
  - apply keeps_tick.
Qed.

Lemma keeps_exec prog : keeps_snapshots (exec prog).
Proof. apply keeps_forOf, keeps_call. Qed.

(** What [save] makes is a memento of the originator's value. *)
Lemma save_captures w o v :
  value_of o w = Some v →
  ∃ m w1, Originator.save o w = (Normal m, w1)
          ∧ snapshots w1 !! m
            = Some (MkMemento v (ConcreteMemento.stamp (clock w))).
Proof.
  unfold value_of. intros Hv.
  destruct (originators w !! o) as [[v']|] eqn:Ho; [|done].
  cbn in Hv. injection Hv as ->.
  eexists _, _. split; [by eapply save_spec|].
  comp_simpl. apply lookup_insert_eq.
Qed.

End Immutability.

(** C8.  A live memento holds the same state and the same date after
    any program of calls on any objects, mutations of the originator it
    was saved from included: [getState], [getName] and [getDate] return
    after the program what the memento held before it.  And what
    [save] makes is such a memento: after any program, its [getState]
    returns the value the originator held at the [save]. *)
Theorem snapshot_is_immutable w m mo prog :
  snapshots w !! m = Some mo →
  let w' := (exec prog w).2 in
  snapshots w' !! m = Some mo
  ∧ ConcreteMemento.getState m w' = (Normal (m_state mo), w')
  ∧ ConcreteMemento.getName m w' = (Normal (ConcreteMemento.name_of mo), w')
  ∧ ConcreteMemento.getDate m w' = (Normal (m_date mo), w')
  ∧ ∀ o v, value_of o w' = Some v →
      ∃ m1 w1,
        Originator.save o w' = (Normal m1, w1)
        ∧ ∀ rest,
            ConcreteMemento.getState m1 (exec rest w1).2
            = (Normal v, (exec rest w1).2).
Proof.
  intros Hm w'.
  assert (Hm' : snapshots w' !! m = Some mo)
    by (eapply lookup_weaken; [exact Hm|apply keeps_exec]).
  split_and!;
    [done|by apply getState_spec|by apply getName_spec|by apply getDate_spec|].
  intros o v Hv. destruct (save_captures _ _ _ Hv) as (m1 & w1 & E1 & H1).
  exists m1, w1. split; [done|]. intros rest.
  eapply (getState_spec _ _ (MkMemento v _)), lookup_weaken;
    [exact H1|apply keeps_exec].
Qed.

Lemma snapshot_is_immutable_witness :
  snapshots demoSaved !! 1%positive = Some (MkMemento "A" "2026-11-01 10:20:30")
  ∧ let w' := (exec [DoSomething 1 draw_b; Tick "2027-01-01T00:00:00.000Z";
                     Backup 1; DoSomething 1 draw_c; Undo 1; Restore 1 2;
                     NewMemento "z"; ShowHistory 1] demoSaved).2 in
    snapshots w' !! 1%positive = Some (MkMemento "A" "2026-11-01 10:20:30")
    ∧ ConcreteMemento.getState 1 w' = (Normal "A", w')
    ∧ ConcreteMemento.getName 1 w' = (Normal "2026-11-01 10:20:30 / (A...)", w')
    ∧ ConcreteMemento.getDate 1 w' = (Normal "2026-11-01 10:20:30", w')
    ∧ ∀ o v, value_of o w' = Some v →
        ∃ m1 w1,
          Originator.save o w' = (Normal m1, w1)
          ∧ ∀ rest,
              ConcreteMemento.getState m1 (exec rest w1).2
              = (Normal v, (exec rest w1).2).
Proof.
  split; [by vm_compute|].
  apply (snapshot_is_immutable demoSaved 1 (MkMemento "A" "2026-11-01 10:20:30")).
  by vm_compute.
Defined.

(** * The [throw] of [undo] *)

(** C10.  [undo] never throws the [Error] of its fourth line, in any
    world: past the guard the array is not empty, and [pop] on a
    non-empty array yields its last element, never [undefined].  In a
    session it throws nothing at all and returns normally. *)
Theorem undo_never_throws c w :
  (Caretaker.undo c w).1 ≠ Thrown JsError
  ∧ (∀ co, caretakers w !! c = Some co → c_mementos co ≠ [] →
       ∃ m, (Caretaker.pop c w).1 = Normal (Some m)
            ∧ last (c_mementos co) = Some m)
  ∧ (∀ o v hs, Session w c o v hs → (Caretaker.undo c w).1 = Normal tt).
Proof.
  split_and!.
  - comp_unfold.
    destruct (caretakers w !! c) as [co|] eqn:Hc; comp_simpl; [|done].
    destruct (c_mementos co) as [|m0 ms] eqn:Hms using rev_ind; [done|].
    rewrite length_app, Nat.add_1_r. cbn [Nat.eqb]. rewrite Hc. comp_simpl.
    rewrite Hms, last_snoc. comp_simpl. rewrite Hc. comp_simpl.
    repeat (case_match; simplify_eq; comp_simpl; try done).
  - intros co Hc Hne. apply last_is_Some in Hne as [m Hm]. exists m.
    split; [|done]. comp_unfold. rewrite Hc. comp_simpl.
    rewrite Hm. by rewrite Hc.
  - intros o v hs HS. destruct hs as [|x hs _] using rev_ind.
    + by rewrite (undo_session_empty _ _ _ _ HS).
    + destruct (undo_session _ _ _ _ _ _ HS) as (w' & E & _). by rewrite E.
Qed.

Lemma undo_never_throws_witness :
  (Caretaker.undo 1 demo1).1 ≠ Thrown JsError
  ∧ (∀ co, caretakers demo1 !! 1%positive = Some co → c_mementos co ≠ [] →
       ∃ m, (Caretaker.pop 1 demo1).1 = Normal (Some m)
            ∧ last (c_mementos co) = Some m)
  ∧ (∀ o v hs, Session demo1 1 o v hs → (Caretaker.undo 1 demo1).1 = Normal tt).
Proof. apply (undo_never_throws 1 demo1). Defined.

(** * What the label gives away *)

Section Strings.
Implicit Types (s t u : string) (n k : nat).

Lemma length_append s t :
  String.length (s +:+ t) = String.length s + String.length t.
Proof. induction s as [|a s IH]; simpl; [done|by rewrite IH]. Qed.

Lemma substring_past s t n k :
  String.substring (String.length s + n) k (s +:+ t) = String.substring n k t.
Proof. induction s as [|a s IH]; simpl; [done|exact IH]. Qed.

Lemma substring_front s t :
  String.substring 0 (String.length s) (s +:+ t) = s.
Proof.
  induction s as [|a s IH]; simpl.
  - by destruct t.
  - by rewrite IH.
Qed.

Lemma length_substr n s :
  String.length (Js.substr 0 n s) = n `min` String.length s.
Proof.
  unfold Js.substr. revert s.
  induction n as [|n IH]; intros [|a s]; simpl; [done..|by rewrite IH].
Qed.

Lemma prefix_substr n s : String.prefix (Js.substr 0 n s) s = true.
Proof.
  unfold Js.substr. revert s.
  induction n as [|n IH]; intros [|a s]; simpl; [done..|].
  rewrite IH. by destruct (ascii_dec a a).
Qed.

Lemma recover_label date p :
  recover date (date +:+ " / (" +:+ p +:+ "...)") = p.
Proof.
  unfold recover, Js.substr.
  rewrite !length_append. cbn [String.length].
  replace (String.length date + (4 + (String.length p + 4))
           - String.length date - 8) with (String.length p) by lia.
  rewrite substring_past. cbn [String.substring String.append].
  apply substring_front.
Qed.

End Strings.

(** C9.  The label of a memento is its date, [" / ("], the first nine
    characters of the captured state (the whole state when it is
    shorter) and ["...)"].  The echoed part is a prefix of the state, of
    length [min 9 (length state)], and it is recovered from what
    [getDate] and [getName] return, without [getState]. *)
Theorem label_echoes_state w m mo :
  snapshots w !! m = Some mo →
  ∃ date name,
    ConcreteMemento.getDate m w = (Normal date, w)
    ∧ ConcreteMemento.getName m w = (Normal name, w)
    ∧ name = m_date mo +:+ " / (" +:+ Js.substr 0 9 (m_state mo) +:+ "...)"
    ∧ String.prefix (Js.substr 0 9 (m_state mo)) (m_state mo) = true
    ∧ String.length (Js.substr 0 9 (m_state mo)) = 9 `min` String.length (m_state mo)
    ∧ recover date name = Js.substr 0 9 (m_state mo).
Proof.
  intros Hm. exists (m_date mo), (ConcreteMemento.name_of mo).
  split_and!; [by apply getDate_spec|by apply getName_spec|done
              |apply prefix_substr|apply length_substr|apply recover_label].
Qed.

Lemma label_echoes_state_witness :
  snapshots clientSaved !! 1%positive
    = Some (MkMemento "Super-duper-super-puper-super." "2026-11-01 10:20:30")
  ∧ ∃ date name,
    ConcreteMemento.getDate 1 clientSaved = (Normal date, clientSaved)
    ∧ ConcreteMemento.getName 1 clientSaved = (Normal name, clientSaved)
    ∧ name = "2026-11-01 10:20:30" +:+ " / (" +:+ "Super-dup" +:+ "...)"
    ∧ String.prefix "Super-dup" "Super-duper-super-puper-super." = true
    ∧ String.length "Super-dup" = 9 `min` 30
    ∧ recover date name = "Super-dup".
Proof.
  split; [by vm_compute|].
  apply (label_echoes_state clientSaved 1
           (MkMemento "Super-duper-super-puper-super." "2026-11-01 10:20:30")).
  by vm_compute.
Defined.

(** * Invariants of every program *)

Section Stable.
Context (R : relation World) `{!PreOrder R}.

Lemma stable_ret {A} (a : A) : stable R (mret a).
Proof. intros w. reflexivity. Qed.

Lemma stable_throw {A} (e : Exn) : stable R (mthrow (A:=A) e).
Proof. intros w. reflexivity. Qed.

Lemma stable_bind {A B} (f : Comp A) (k : A → Comp B) :
  stable R f → (∀ a, stable R (k a)) → stable R (f ≫= k).
Proof.
  intros Hf Hk w. unfold mbind, Comp_bind.
  specialize (Hf w). destruct (f w) as [[a|e] w1]; [|done].
  etrans; [exact Hf|apply Hk].
Qed.

Lemma stable_forOf {A} (xs : list A) (body : A → Comp unit) :
  (∀ x, stable R (body x)) → stable R (forOf xs body).
Proof.
  intros Hbody. induction xs as [|x xs IH]; cbn [forOf].
  - apply stable_ret.
  - by apply stable_bind.
Qed.

End Stable.

Global Instance originators_persist_po : PreOrder originators_persist.
Proof.
  split; unfold originators_persist.
  - intros w. reflexivity.
  - intros w1 w2 w3 H1 H2. by etrans.
Qed.

Global Instance bindings_persist_po : PreOrder bindings_persist.
Proof.
  split.
  - by intros w c o Hc.
  - intros w1 w2 w3 H1 H2 c o Hc. by apply H2, H1.
Qed.

Global Instance caretakers_kept_po : PreOrder caretakers_kept.
Proof.
  split; unfold caretakers_kept.
  - by intros w.
  - intros w1 w2 w3 H1 H2. congruence.
Qed.

(** The methods, down to the primitives and [push] and [pop]. *)
Ltac meth_unfold :=
  unfold call, void, exec,
    Caretaker.showHistory, Caretaker.undo, Caretaker.backup, Caretaker.new,
    Originator.restore, Originator.save, Originator.doSomething, Originator.new,
    ConcreteMemento.getDate, ConcreteMemento.getName, ConcreteMemento.getState,
    ConcreteMemento.new.

(** A primitive, opened on a world. *)
Ltac prim_open :=
  intros ?w;
  unfold tick, readOriginator, writeOriginator, allocOriginator, readMemento,
    allocMemento, readCaretaker, writeCaretaker, allocCaretaker, log, now;
  repeat case_match; comp_simpl.

(** Splits a method into its primitives and closes each with [leaf]. *)
Ltac stable_go leaf :=
  repeat first
    [ solve [leaf]
    | apply stable_ret; apply _
    | apply stable_throw; apply _
    | apply stable_bind; [apply _| |intros ?]
    | apply stable_forOf; [apply _|intros ?]
    | case_match ].

Global Instance other_caretakers_kept_po c : PreOrder (other_caretakers_kept c).
Proof.
  split.
  - by intros w c' Hc'.
  - intros w1 w2 w3 H1 H2 c' Hc'. by rewrite (H2 c' Hc'), (H1 c' Hc').
Qed.

Global Instance other_originators_kept_po o : PreOrder (other_originators_kept o).
Proof.
  split.
  - by intros w o' Ho'.
  - intros w1 w2 w3 H1 H2 o' Ho'. by rewrite (H2 o' Ho'), (H1 o' Ho').
Qed.

Section Persistence.
Implicit Types (w : World) (o m c : ref).

Lemma originators_persist_call k : stable originators_persist (call k).
Proof.
  destruct k; meth_unfold; unfold Caretaker.push, Caretaker.pop;
    stable_go ltac:(prim_open; unfold originators_persist; comp_simpl;
                    first [reflexivity
                          |rewrite dom_insert_L; apply union_subseteq_r]).
Qed.

Lemma originators_persist_exec prog : stable originators_persist (exec prog).
Proof. apply stable_forOf; [apply _|apply originators_persist_call]. Qed.

(** [push] and [pop] write back the originator they read. *)
Lemma bindings_persist_push c m : stable bindings_persist (Caretaker.push c m).
Proof.
  intros w c' o. unfold originator_of. comp_unfold.
  destruct (caretakers w !! c) as [co|] eqn:Hc; comp_simpl; [|done].
  rewrite Hc. comp_simpl.
  destruct (decide (c' = c)) as [->|Hne].
  - rewrite Hc, lookup_insert_eq. done.
  - by rewrite lookup_insert_ne.
Qed.

Lemma bindings_persist_pop c : stable bindings_persist (Caretaker.pop c).
Proof.
  intros w c' o. unfold originator_of. comp_unfold.
  destruct (caretakers w !! c) as [co|] eqn:Hc; comp_simpl; [|done].
  destruct (last (c_mementos co)); comp_simpl; [|done].
  rewrite Hc. comp_simpl.
  destruct (decide (c' = c)) as [->|Hne].
  - rewrite Hc, lookup_insert_eq. done.
  - by rewrite lookup_insert_ne.
Qed.

Lemma bindings_persist_call k : stable bindings_persist (call k).
Proof.
  destruct k; meth_unfold;
    stable_go ltac:(first
      [ apply bindings_persist_push
      | apply bindings_persist_pop
      | prim_open; intros c' o'; unfold originator_of; comp_simpl;
        first [done
              |intros Hc'; rewrite lookup_insert_ne; [done|];
               intros <-; apply fmap_Some in Hc' as (co & Hco & _);
               apply (is_fresh (dom (caretakers w))), elem_of_dom;
               by eexists] ]).
Qed.

Lemma bindings_persist_exec prog : stable bindings_persist (exec prog).
Proof. apply stable_forOf; [apply _|apply bindings_persist_call]. Qed.

End Persistence.

(** * No program throws the [Error] *)

Section Quiet.
Implicit Types (w : World) (o m c : ref).

Lemma quiet_ret {A} (a : A) : quiet (mret a).
Proof. by intros w. Qed.

Lemma quiet_bind {A B} (f : Comp A) (k : A → Comp B) :
  quiet f → (∀ a, quiet (k a)) → quiet (f ≫= k).
Proof.
  intros Hf Hk w. unfold mbind, Comp_bind.
  specialize (Hf w). destruct (f w) as [[a|e] w1]; [apply Hk|].
  cbn [fst] in *. intros [= ->]. by apply Hf.
Qed.

Lemma quiet_forOf {A} (xs : list A) (body : A → Comp unit) :
  (∀ x, quiet (body x)) → quiet (forOf xs body).
Proof.
  intros Hbody. induction xs as [|x xs IH]; cbn [forOf].
  - apply quiet_ret.
  - by apply quiet_bind.
Qed.

(** Past its guard [undo] finds a last element, so its [throw] is not
    reached. *)
Lemma quiet_undo c : quiet (Caretaker.undo c).
Proof.
  intros w. comp_unfold.
  destruct (caretakers w !! c) as [co|] eqn:Hc; comp_simpl; [|done].
  destruct (c_mementos co) as [|m0 ms] eqn:Hms using rev_ind; [done|].
  rewrite length_app, Nat.add_1_r. cbn [Nat.eqb]. rewrite Hc. comp_simpl.
  rewrite Hms, last_snoc. comp_simpl. rewrite Hc. comp_simpl.
  repeat (case_match; simplify_eq; comp_simpl; try done).
Qed.

Lemma quiet_call k : quiet (call k).
Proof.
  destruct k; try apply quiet_undo; meth_unfold;
    unfold Caretaker.push, Caretaker.pop;
    repeat first
      [ solve [prim_open; done]
      | apply quiet_ret
      | apply quiet_bind; [|intros ?]
      | apply quiet_forOf; intros ?
      | case_match ].
Qed.

End Quiet.

(** X3.  No program of calls, in any world, ends on the [Error] that
    [undo] has a [throw] for. *)
Theorem program_never_throws_Error prog w :
  (exec prog w).1 ≠ Thrown JsError.
Proof. revert w. apply quiet_forOf, quiet_call. Qed.

(** * Well-formed worlds *)

Section WellFormed.
Implicit Types (w : World) (o m c : ref).

Lemma wf_emptyWorld iso : wf (emptyWorld iso).
Proof. intros c co Hc. cbn [emptyWorld caretakers] in Hc. by rewrite lookup_empty in Hc. Qed.

(** In a well-formed world every live caretaker is in a session. *)
Lemma wf_session w c :
  wf w → is_Some (caretakers w !! c) → ∃ o v hs, Session w c o v hs.
Proof.
  intros Hwf [[ms o] Hc]. destruct (Hwf _ _ Hc) as [[[v] Ho] Hms].
  cbn [c_mementos c_originator] in *.
  assert (∃ hs, Forall2 (captured w) ms hs) as [hs Hhs].
  { clear Hc. induction Hms as [|m ms [mo Hm] _ [hs IH]].
    - by exists [].
    - exists (m_state mo :: hs). constructor; [by exists mo|done]. }
  exists o, v, hs. by eapply Session_intro.
Qed.

(** Writing a caretaker whose references are live, in stores that have
    only grown, keeps the world well formed. *)
Lemma wf_write w c co os ss out clk :
  wf w →
  dom (originators w) ⊆ dom os →
  snapshots w ⊆ ss →
  is_Some (os !! c_originator co) →
  Forall (λ m, is_Some (ss !! m)) (c_mementos co) →
  wf (MkWorld os ss (<[c := co]> (caretakers w)) out clk).
Proof.
  intros Hwf Hos Hss Ho Hms c' co'. comp_simpl.
  destruct (decide (c' = c)) as [->|Hne].
  - rewrite lookup_insert_eq. by intros [= <-].
  - rewrite lookup_insert_ne by done. intros Hc'.
    destruct (Hwf _ _ Hc') as [Ho' Hms']. split.
    + by apply elem_of_dom, Hos, elem_of_dom.
    + eapply Forall_impl; [exact Hms'|]. intros m [mo Hm].
      exists mo. by eapply lookup_weaken.
Qed.

Lemma wf_extend w w' :
  wf w → originators_persist w w' → snapshots w ⊆ snapshots w' →
  caretakers_kept w w' → wf w'.
Proof.
  intros Hwf Hos Hss Hcs c co. rewrite Hcs. intros Hc.
  destruct (Hwf _ _ Hc) as [Ho Hms]. split.
  - by apply elem_of_dom, Hos, elem_of_dom.
  - eapply Forall_impl; [exact Hms|]. intros m [mo Hm].
    exists mo. by eapply lookup_weaken.
Qed.

(** The calls that write no caretaker. *)
Lemma caretakers_kept_call k :
  match k with
  | NewCaretaker _ | Backup _ | Undo _ => True
  | _ => stable caretakers_kept (call k)
  end.
Proof.
  destruct k; try done; meth_unfold;
    stable_go ltac:(prim_open; reflexivity).
Qed.

Lemma void_normal {A} (f : Comp A) w a w' :
  f w = (Normal a, w') → void f w = (Normal tt, w').
Proof. intros H. unfold void. by rewrite (bind_normal _ _ _ _ _ H). Qed.

Lemma call_normal k w :
  wf w → live k w → ∃ w', call k w = (Normal tt, w').
Proof.
  intros Hwf Hl. destruct k; cbn [call live] in *.
  - eexists. by comp_run.
  - destruct Hl as [oo Ho]. eexists. by eapply doSomething_spec.
  - destruct Hl as [oo Ho]. eexists. by eapply void_normal, save_spec.
  - destruct Hl as [[oo Ho] [mo Hm]]. eexists. by eapply restore_spec.
  - eexists. reflexivity.
  - destruct Hl as [mo Hm]. eexists. by eapply void_normal, getState_spec.
  - destruct Hl as [mo Hm]. eexists. by eapply void_normal, getName_spec.
  - destruct Hl as [mo Hm]. eexists. by eapply void_normal, getDate_spec.
  - eexists. reflexivity.
  - destruct (wf_session _ _ Hwf Hl) as (o & v & hs & HS).
    destruct (backup_session _ _ _ _ _ HS) as (w' & E & _). by exists w'.
  - destruct (wf_session _ _ Hwf Hl) as (o & v & hs & HS).
    destruct hs as [|x hs _] using rev_ind.
    + exists w. by eapply undo_session_empty.
    + destruct (undo_session _ _ _ _ _ _ HS) as (w' & E & _). by exists w'.
  - destruct (wf_session _ _ Hwf Hl) as (o & v & hs & HS).
    destruct (showHistory_session _ _ _ _ _ HS) as (w' & E & _). by exists w'.
  - eexists. reflexivity.
Qed.

Lemma call_wf k w : wf w → live k w → wf (call k w).2.
Proof.
  intros Hwf Hl.
  destruct k;
    try (apply (wf_extend w);
         [done|apply originators_persist_call|apply keeps_call|];
         match goal with
         | |- caretakers_kept _ (call ?k _).2 => exact (caretakers_kept_call k w)
         end);
    cbn [call live] in *.
  - (* NewCaretaker *)
    unfold void. comp_run. by apply wf_write.
  - (* Backup *)
    destruct Hl as [co Hc]. destruct (Hwf _ _ Hc) as [[oo Ho] Hms].
    erewrite backup_spec by done. cbn [snd].
    apply wf_write; comp_simpl; [done..| |by eexists|].
    + apply insert_subseteq, not_elem_of_dom, is_fresh.
    + apply Forall_app. split.
      * eapply Forall_impl; [exact Hms|]. intros m [mo Hm]. exists mo.
        eapply lookup_weaken; [exact Hm|].
        apply insert_subseteq, not_elem_of_dom, is_fresh.
      * constructor; [|constructor]. rewrite lookup_insert_eq. by eexists.
  - (* Undo *)
    destruct Hl as [[ms o] Hc]. destruct (Hwf _ _ Hc) as [[oo Ho] Hms].
    cbn [c_mementos c_originator] in *.
    destruct ms as [|m ms _] using rev_ind.
    + by erewrite undo_empty_spec.
    + apply Forall_app in Hms as [Hms [[mo Hm] _]%Forall_cons].
      erewrite undo_spec by done. cbn [snd].
      apply wf_write; comp_simpl; [done| |done| |done].
      * rewrite dom_insert_L. apply union_subseteq_r.
      * rewrite lookup_insert_eq. by eexists.
Qed.

End WellFormed.

(** X4.  From a well-formed world, a program whose calls are each made
    on live objects returns normally, and leaves a well-formed world:
    no call finds a missing object, and every caretaker still refers to
    a live originator and to live mementos. *)
Theorem admissible_program_returns prog w :
  wf w → admissible prog w →
  ∃ w', exec prog w = (Normal tt, w') ∧ wf w'.
Proof.
  revert w. induction prog as [|k prog IH]; intros w Hwf Had.
  - by exists w.
  - destruct Had as [Hl Had].
    destruct (call_normal k w Hwf Hl) as [w1 E1].
    rewrite E1 in Had. cbn [snd] in Had.
    assert (Hwf1 : wf w1).
    { pose proof (call_wf k w Hwf Hl) as H. by rewrite E1 in H. }
    destruct (IH w1 Hwf1 Had) as (w2 & E2 & Hwf2).
    exists w2. by rewrite (exec_cons _ _ _ _ E1).
Qed.

Lemma admissible_program_returns_witness :
  wf (emptyWorld "2026-11-01T10:20:30.123Z")
  ∧ admissible
      [NewOriginator "A"; NewCaretaker 1; Backup 1; DoSomething 1 draw_b;
       ShowHistory 1; Undo 1; Undo 1; Save 1; Restore 1 2; GetName 1]
      (emptyWorld "2026-11-01T10:20:30.123Z")
  ∧ ∃ w',
      exec
        [NewOriginator "A"; NewCaretaker 1; Backup 1; DoSomething 1 draw_b;
         ShowHistory 1; Undo 1; Undo 1; Save 1; Restore 1 2; GetName 1]
        (emptyWorld "2026-11-01T10:20:30.123Z") = (Normal tt, w')
      ∧ wf w'.
Proof.
  assert (Hwf : wf (emptyWorld "2026-11-01T10:20:30.123Z"))
    by apply wf_emptyWorld.
  assert (Had : admissible
      [NewOriginator "A"; NewCaretaker 1; Backup 1; DoSomething 1 draw_b;
       ShowHistory 1; Undo 1; Undo 1; Save 1; Restore 1 2; GetName 1]
      (emptyWorld "2026-11-01T10:20:30.123Z")).
  { vm_compute. repeat (split || eexists). }
  split; [exact Hwf|]. split; [exact Had|].
  exact (admissible_program_returns _ _ Hwf Had).
Defined.

(** * What lasts over every program *)

(** X5.  A caretaker stays bound to the originator it was made with,
    and that originator stays live, over any program of calls. *)
Theorem caretaker_stays_bound prog w c o :
  originator_of c w = Some o →
  is_Some (value_of o w) →
  originator_of c (exec prog w).2 = Some o
  ∧ is_Some (value_of o (exec prog w).2).
Proof.
  intros Hc Ho. split; [by apply bindings_persist_exec|].
  unfold value_of in *. apply fmap_is_Some in Ho. apply fmap_is_Some.
  by apply elem_of_dom, (originators_persist_exec prog w), elem_of_dom.
Qed.

Lemma caretaker_stays_bound_witness :
  originator_of 1 demo = Some 1%positive
  ∧ is_Some (value_of 1 demo)
  ∧ originator_of 1
      (exec [NewOriginator "B"; NewCaretaker 2; Backup 1; DoSomething 1 draw_b;
             Backup 2; Undo 1; Undo 1; Undo 2] demo).2 = Some 1%positive
  ∧ is_Some (value_of 1
      (exec [NewOriginator "B"; NewCaretaker 2; Backup 1; DoSomething 1 draw_b;
             Backup 2; Undo 1; Undo 1; Undo 2] demo).2).
Proof.
  assert (H1 : originator_of 1 demo = Some 1%positive) by (by vm_compute).
  assert (H2 : is_Some (value_of 1 demo)) by (by vm_compute; eexists).
  split; [exact H1|]. split; [exact H2|].
  exact (caretaker_stays_bound _ demo 1 1 H1 H2).
Defined.

(** X6.  What [save] returns brings the originator back to the value
    it held at the [save], whatever program of calls ran in between. *)
Theorem save_restore_round_trip prog w o v :
  value_of o w = Some v →
  ∃ m w1 w3,
    Originator.save o w = (Normal m, w1)
    ∧ Originator.restore o m (exec prog w1).2 = (Normal tt, w3)
    ∧ value_of o w3 = Some v.
Proof.
  unfold value_of. intros Hv.
  destruct (originators w !! o) as [[v']|] eqn:Ho; [|done].
  cbn in Hv. injection Hv as ->.
  pose proof (save_spec w o _ Ho) as E1. cbn [o_state] in E1.
  set (m := fresh (dom (snapshots w))) in E1.
  set (mo := MkMemento v (ConcreteMemento.stamp (clock w))) in E1.
  set (w1 := MkWorld _ _ _ _ _) in E1.
  set (w2 := (exec prog w1).2).
  assert (Hm2 : snapshots w2 !! m = Some mo).
  { eapply lookup_weaken; [|apply keeps_exec]. apply lookup_insert_eq. }
  assert (is_Some (originators w2 !! o)) as [oo2 Ho2].
  { apply elem_of_dom, (originators_persist_exec prog w1), elem_of_dom.
    by eexists. }
  eexists m, w1, _. split; [exact E1|]. split; [by eapply restore_spec|].
  comp_simpl. by rewrite lookup_insert_eq.
Qed.

Lemma save_restore_round_trip_witness :
  value_of 1 demo = Some "A"
  ∧ ∃ m w1 w3,
    Originator.save 1 demo = (Normal m, w1)
    ∧ Originator.restore 1 m
        (exec [DoSomething 1 draw_b; Backup 1; DoSomething 1 draw_c; Undo 1;
               Tick "2027-01-01T00:00:00.000Z"; NewOriginator "B"] w1).2
      = (Normal tt, w3)
    ∧ value_of 1 w3 = Some "A".
Proof.
  split; [by vm_compute|].
  apply (save_restore_round_trip
           [DoSomething 1 draw_b; Backup 1; DoSomething 1 draw_c; Undo 1;
            Tick "2027-01-01T00:00:00.000Z"; NewOriginator "B"] demo 1 "A").
  by vm_compute.
Defined.

(** * Caretakers do not interfere *)

Section Independence.
Implicit Types (w : World) (o m c : ref).

Lemma other_caretakers_kept_invoke c meth :
  stable (other_caretakers_kept c) (call (invoke c meth)).
Proof.
  destruct meth; cbn [invoke]; meth_unfold;
    unfold Caretaker.push, Caretaker.pop;
    stable_go ltac:(prim_open; intros c' Hc'; comp_simpl;
                    first [done|by rewrite lookup_insert_ne]).
Qed.

(** The part of [undo] past the read of the caretaker writes the
    originator of the object read, and no other. *)
Lemma other_originators_kept_invoke w c co meth :
  caretakers w !! c = Some co →
  other_originators_kept (c_originator co) w (call (invoke c meth) w).2.
Proof.
  intros Hc.
  cut (∀ obj, obj = co →
         stable (other_originators_kept (c_originator co))
           (match meth with
            | Mbackup =>
                m ← Originator.save (c_originator obj); Caretaker.push c m
            | Mundo =>
                if Nat.eqb (length (c_mementos obj)) 0 then mret tt
                else
                  popped ← Caretaker.pop c;
                  match popped with
                  | None => mthrow JsError
                  | Some memento =>
                      name ← ConcreteMemento.getName memento;
                      log ("Caretaker: Restoring state to: " +:+ name);;
                      Originator.restore (c_originator obj) memento
                  end
            | MshowHistory =>
                forOf (c_mementos obj)
                  (λ memento,
                     name ← ConcreteMemento.getName memento; log name)
            end)).
  - intros Hst. specialize (Hst co eq_refl).
    destruct meth; cbn [invoke call].
    + unfold Caretaker.backup.
      erewrite bind_normal by reflexivity.
      erewrite bind_normal by (unfold readCaretaker; comp_simpl; by rewrite Hc).
      intros o' Ho'. by rewrite (Hst _ o' Ho').
    + unfold Caretaker.undo.
      erewrite bind_normal by (unfold readCaretaker; by rewrite Hc).
      apply Hst.
    + unfold Caretaker.showHistory.
      erewrite bind_normal by reflexivity.
      erewrite bind_normal by (unfold readCaretaker; comp_simpl; by rewrite Hc).
      intros o' Ho'. by rewrite (Hst _ o' Ho').
  - intros obj ->. destruct meth; meth_unfold;
      unfold Caretaker.push, Caretaker.pop;
      stable_go ltac:(prim_open; intros o' Ho'; comp_simpl;
                      first [done|by rewrite lookup_insert_ne]).
Qed.

Lemma states_of_weaken w w' ms hs :
  snapshots w ⊆ snapshots w' →
  states_of ms w = Some hs → states_of ms w' = Some hs.
Proof.
  intros Hss. rewrite !states_of_captured. intros H.
  eapply Forall2_impl; [exact H|]. intros m s (mo & Hm & Hs).
  exists mo. split; [by eapply lookup_weaken|done].
Qed.

End Independence.

(** X7.  A method called on caretaker [c] leaves the stack of every
    other caretaker as it was, also of one bound to the same
    originator, and leaves every originator but the one [c] is bound to
    as it was. *)
Theorem caretakers_are_independent w c co meth :
  caretakers w !! c = Some co →
  let w' := (call (invoke c meth) w).2 in
  (∀ c' hs, c' ≠ c → history_of c' w = Some hs → history_of c' w' = Some hs)
  ∧ (∀ o', o' ≠ c_originator co → value_of o' w' = value_of o' w).
Proof.
  intros Hc w'. subst w'. split.
  - intros c' hs Hne. unfold history_of.
    rewrite (other_caretakers_kept_invoke c meth w c' Hne).
    destruct (caretakers w !! c') as [co'|]; [|done]. cbn.
    apply states_of_weaken, keeps_call.
  - intros o' Hne. unfold value_of.
    by rewrite (other_originators_kept_invoke w c co meth Hc o' Hne).
Qed.

Lemma caretakers_are_independent_witness :
  caretakers twoCaretakers !! 1%positive = Some (MkCaretaker [1%positive; 2%positive] 1)
  ∧ let w' := (call (invoke 1 Mundo) twoCaretakers).2 in
    (∀ c' hs, c' ≠ 1%positive →
       history_of c' twoCaretakers = Some hs → history_of c' w' = Some hs)
    ∧ (∀ o', o' ≠ c_originator (MkCaretaker [1%positive; 2%positive] 1) →
         value_of o' w' = value_of o' twoCaretakers).
Proof.
  split; [by vm_compute|].
  apply (caretakers_are_independent twoCaretakers 1
           (MkCaretaker [1%positive; 2%positive] 1) Mundo).
  by vm_compute.
Defined.

(** * Constructors, and captures undone *)

Section Compositions.
Implicit Types (w : World) (o m c : ref) (v : string) (hs : list string).

Lemma run_undos_k k : ∀ w c o v hs,
  Session w c o v hs →
  ∃ w', exec (undos c k) w = (Normal tt, w')
        ∧ Session w' c o (default v (head (drop (length hs - k) hs)))
            (take (length hs - k) hs).
Proof.
  induction k as [|k IH]; intros w c o v hs HS.
  - exists w. rewrite Nat.sub_0_r, drop_all, firstn_all. by split.
  - unfold undos. rewrite replicate_S. fold (undos c k).
    destruct hs as [|x hs _] using rev_ind.
    + pose proof (undo_session_empty _ _ _ _ HS) as E1.
      destruct (IH _ _ _ _ _ HS) as (w2 & E2 & HS2).
      exists w2. split; [by rewrite (exec_cons (Undo c) _ _ _ E1)|].
      by destruct k.
    + destruct (undo_session _ _ _ _ _ _ HS) as (w1 & E1 & HS1).
      destruct (IH _ _ _ _ _ HS1) as (w2 & E2 & HS2).
      exists w2. split; [by rewrite (exec_cons (Undo c) _ _ _ E1)|].
      rewrite length_app, Nat.add_1_r. cbn [Nat.sub].
      rewrite take_app_le by lia. rewrite drop_app_le by lia.
      by destruct (drop (length hs - k) hs).
Qed.

End Compositions.

(** X8.  [k] undos take [min k n] entries off a stack of [n]: the
    entries below stay, the value becomes the oldest capture taken off
    (it stays when [k = 0] or the stack was empty), and the undos past
    the bottom of the stack do nothing. *)
Theorem undo_k_times k w c o v hs :
  Session w c o v hs →
  ∃ w',
    exec (undos c k) w = (Normal tt, w')
    ∧ history_of c w' = Some (take (length hs - k) hs)
    ∧ value_of o w' = Some (default v (head (drop (length hs - k) hs))).
Proof.
  intros HS. destruct (run_undos_k k _ _ _ _ _ HS) as (w' & E & HS').
  exists w'. split_and!; [done|by eapply Session_history|by eapply Session_value].
Qed.

Lemma undo_k_times_witness :
  Session demo2 1 1 "c" ["A"; "b"]
  ∧ ∃ w',
    exec (undos 1 5) demo2 = (Normal tt, w')
    ∧ history_of 1 w' = Some (take (length ["A"; "b"] - 5) ["A"; "b"])
    ∧ value_of 1 w'
      = Some (default "c" (head (drop (length ["A"; "b"] - 5) ["A"; "b"]))).
Proof.
  split; [by vm_compute|].
  apply (undo_k_times 5 demo2 1 1 "c" ["A"; "b"]). by vm_compute.
Defined.

(** X9.  A capture at once undone leaves every originator and every
    caretaker as they were: what remains of it is one more memento in
    the store and the lines printed. *)
Theorem backup_then_undo w c o v hs :
  Session w c o v hs →
  ∃ w',
    exec [Backup c; Undo c] w = (Normal tt, w')
    ∧ originators w' = originators w
    ∧ caretakers w' = caretakers w
    ∧ snapshots w ⊆ snapshots w'
    ∧ size (snapshots w') = S (size (snapshots w)).
Proof.
  intros (ms & Hc & Ho & Hms)%Session_inv.
  pose proof (backup_spec w c _ _ Hc Ho) as E1.
  cbn [c_mementos c_originator o_state] in E1.
  eexists. split.
  { rewrite (exec_cons (Backup c) _ _ _ E1).
    erewrite (exec_cons (Undo c)); [reflexivity|].
    eapply undo_spec; comp_simpl;
      [apply lookup_insert_eq|exact Ho|apply lookup_insert_eq]. }
  comp_simpl. split_and!.
  - by apply insert_id.
  - rewrite insert_insert_eq. by apply insert_id.
  - apply insert_subseteq, not_elem_of_dom, is_fresh.
  - apply map_size_insert_None, not_elem_of_dom, is_fresh.
Qed.

Lemma backup_then_undo_witness :
  Session demo2 1 1 "c" ["A"; "b"]
  ∧ ∃ w',
    exec [Backup 1; Undo 1] demo2 = (Normal tt, w')
    ∧ originators w' = originators demo2
    ∧ caretakers w' = caretakers demo2
    ∧ snapshots demo2 ⊆ snapshots w'
    ∧ size (snapshots w') = S (size (snapshots demo2)).
Proof.
  split; [by vm_compute|].
  apply (backup_then_undo demo2 1 1 "c" ["A"; "b"]). by vm_compute.
Defined.

(** X10.  In any world, [new Originator(state)] followed by
    [new Caretaker(originator)] makes two objects at references that
    were free, in a session with the given state and an empty stack,
    and every session there was is still there. *)
Theorem constructors_open_a_session w state :
  ∃ o c w',
    newSession state w = (Normal (o, c), w')
    ∧ Session w' c o state []
    ∧ originators w !! o = None
    ∧ caretakers w !! c = None
    ∧ ∀ c0 o0 v0 hs0, Session w c0 o0 v0 hs0 → Session w' c0 o0 v0 hs0.
Proof.
  exists (fresh (dom (originators w))), (fresh (dom (caretakers w))).
  eexists. split; [reflexivity|]. comp_simpl.
  assert (Ho : originators w !! fresh (dom (originators w)) = None)
    by apply not_elem_of_dom, is_fresh.
  assert (Hc : caretakers w !! fresh (dom (caretakers w)) = None)
    by apply not_elem_of_dom, is_fresh.
  split_and!; [|done..|].
  - eapply Session_intro; comp_simpl;
      [apply lookup_insert_eq|apply lookup_insert_eq|constructor].
  - intros c0 o0 v0 hs0 (ms & Hc0 & Ho0 & Hms)%Session_inv.
    eapply Session_intro; comp_simpl.
    + rewrite lookup_insert_ne; [done|]. intros <-. by rewrite Hc in Hc0.
    + rewrite lookup_insert_ne; [done|]. intros <-. by rewrite Ho in Ho0.
    + done.
Qed.

(** * The strings the file builds *)

Section MoreStrings.
Implicit Types (s t u d : string) (n k : nat).

Lemma get_lt s n : n < String.length s → is_Some (String.get n s).
Proof.
  revert n. induction s as [|a s IH]; intros n; simpl; [lia|].
  destruct n as [|n]; [by eexists|]. intros Hn. apply IH. lia.
Qed.

Lemma length_charAt n s : String.length (Js.charAt n s) ≤ 1.
Proof. unfold Js.charAt. destruct (String.get n s); simpl; lia. Qed.

Lemma append_cons a s t : String a s +:+ t = String a (s +:+ t).
Proof. reflexivity. Qed.

Lemma append_empty_r s : s +:+ "" = s.
Proof. induction s as [|a s IH]; [done|]. by rewrite append_cons, IH. Qed.

Lemma mutated_charAt draw : mutated draw = Js.charAt (draw 0) Originator.charSet.
Proof.
  unfold mutated, Originator.generateRandomString, Js.Array, Js.join.
  cbn [imap foldr]. apply append_empty_r.
Qed.

Lemma substr_short n s : String.length s ≤ n → Js.substr 0 n s = s.
Proof.
  unfold Js.substr. revert n.
  induction s as [|a s IH]; intros [|n]; simpl; try done; try lia.
  intros Hn. rewrite IH; [done|lia].
Qed.





End MoreStrings.

(** X1.  Whatever length is asked of [generateRandomString] (the file
    asks for 30), [doSomething] stores a single character: the one of
    [charSet] at the index drawn. *)
Theorem mutation_is_one_character w o draw :
  is_Some (value_of o w) →
  draw 0 < 52 →
  ∃ a w',
    Originator.doSomething o draw w = (Normal tt, w')
    ∧ value_of o w' = Some (String a "")
    ∧ String.get (draw 0) Originator.charSet = Some a
    ∧ ∀ length, Originator.generateRandomString length draw = String a "".
Proof.
  unfold value_of. intros [oo Ho]%fmap_is_Some Hd.
  destruct (get_lt Originator.charSet (draw 0) Hd) as [a Ha].
  assert (Hm : ∀ n, Originator.generateRandomString n draw = String a "").
  { intros n. change (mutated draw = String a ""). rewrite mutated_charAt.
    unfold Js.charAt. by rewrite Ha. }
  exists a. eexists. split; [by eapply doSomething_spec|].
  comp_simpl. rewrite lookup_insert_eq.
  split_and!; [by rewrite <- (Hm 30)|done..].
Qed.

Lemma mutation_is_one_character_witness :
  is_Some (value_of 1 demo)
  ∧ draw_b 0 < 52
  ∧ ∃ a w',
    Originator.doSomething 1 draw_b demo = (Normal tt, w')
    ∧ value_of 1 w' = Some (String a "")
    ∧ String.get (draw_b 0) Originator.charSet = Some a
    ∧ ∀ length, Originator.generateRandomString length draw_b = String a "".
Proof.
  assert (H1 : is_Some (value_of 1 demo)) by (by vm_compute; eexists).
  assert (H2 : draw_b 0 < 52) by (vm_compute; lia).
  split; [exact H1|]. split; [exact H2|].
  exact (mutation_is_one_character demo 1 draw_b H1 H2).
Defined.



Section Leak.
Implicit Types (w : World) (o m c : ref) (v : string) (hs : list string).

Lemma Session_labels w c o v hs :
  Session w c o v hs → ∃ ls, labels_of c w = Some ls.
Proof.
  intros (ms & Hc & Ho & Hms)%Session_inv.
  unfold labels_of. rewrite Hc. cbn. apply mapM_is_Some.
  eapply Forall2_Forall_l; [exact Hms|]. apply Forall_true.
  intros s m (mo & Hm & _). unfold compose. rewrite Hm. by eexists.
Qed.

Lemma backup_clock_size w c o v hs :
  Session w c o v hs →
  clock (Caretaker.backup c w).2 = clock w
  ∧ size (snapshots (Caretaker.backup c w).2) = S (size (snapshots w)).
Proof.
  intros (ms & Hc & Ho & Hms)%Session_inv.
  erewrite backup_spec by done. comp_simpl. split; [done|].
  apply map_size_insert_None, not_elem_of_dom, is_fresh.
Qed.

End Leak.

(** X11.  After a mutation and a capture, the label of the new memento,
    the last of the listing, gives away the whole state of the
    originator: cut as a caller can cut it, from the date on, it is the
    state. *)
Theorem mutated_state_is_leaked w c o v hs draw :
  Session w c o v hs →
  ∃ w' ls name,
    exec [DoSomething o draw; Backup c] w = (Normal tt, w')
    ∧ value_of o w' = Some (mutated draw)
    ∧ labels_of c w' = Some (ls ++ [name])
    ∧ recover (ConcreteMemento.stamp (clock w)) name = mutated draw.
Proof.
  intros HS.
  destruct (Session_inv _ _ _ _ _ HS) as (ms & Hc & Ho & Hms).
  pose proof (doSomething_spec w o _ draw Ho) as E1.
  destruct (doSomething_session _ _ _ _ _ draw HS) as (w1 & E1' & HS1).
  rewrite E1 in E1'. injection E1' as <-.
  destruct (Session_labels _ _ _ _ _ HS1) as [ls Hls].
  destruct (backup_session _ _ _ _ _ HS1) as (w2 & E2 & HS2).
  pose proof (backup_labels _ _ _ _ _ _ HS1 Hls) as Hl2.
  rewrite E2 in Hl2. cbn [snd clock] in Hl2.
  exists w2, ls. eexists. split_and!.
  - by rewrite (exec_cons (DoSomething o draw) _ _ _ E1),
      (exec_cons (Backup c) _ _ _ E2).
  - by eapply Session_value.
  - exact Hl2.
  - unfold ConcreteMemento.name_of. cbn [m_date m_state].
    rewrite recover_label. apply substr_short.
    rewrite mutated_charAt. etrans; [apply length_charAt|lia].
Qed.

Lemma mutated_state_is_leaked_witness :
  Session demo 1 1 "A" []
  ∧ ∃ w' ls name,
    exec [DoSomething 1 draw_b; Backup 1] demo = (Normal tt, w')
    ∧ value_of 1 w' = Some (mutated draw_b)
    ∧ labels_of 1 w' = Some (ls ++ [name])
    ∧ recover (ConcreteMemento.stamp (clock demo)) name = mutated draw_b.
Proof.
  split; [by vm_compute|].
  apply (mutated_state_is_leaked demo 1 1 "A" [] draw_b). by vm_compute.
Defined.

(** X12.  Whatever the draws and the clock, the client code at the end
    of the file returns normally after 21 calls of [console.log] (the
    console of the model holds one entry per call); it ends with the
    originator on the value of its FIRST mutation, the two later ones
    undone, and with the memento of the initial state still on the
    stack, never restored. *)
Theorem client_outcome d1 d2 d3 iso :
  let run := client d1 d2 d3 (emptyWorld iso) in
  run.1 = Normal tt
  ∧ value_of 1 run.2 = Some (mutated d1)
  ∧ history_of 1 run.2 = Some ["Super-duper-super-puper-super."]
  ∧ length (console run.2) = 21.
Proof. by vm_compute. Qed.

(** X13.  Captures are not deduplicated: two captures in a row, of a
    value that has not changed, push two mementos, two new objects
    holding the same state, and (the clock not having moved) the
    listing shows the same label twice. *)
Theorem double_capture w c o v hs ls :
  Session w c o v hs →
  labels_of c w = Some ls →
  ∃ w' l,
    exec [Backup c; Backup c] w = (Normal tt, w')
    ∧ history_of c w' = Some (hs ++ [v; v])
    ∧ labels_of c w' = Some (ls ++ [l; l])
    ∧ size (snapshots w') = S (S (size (snapshots w))).
Proof.
  intros HS Hls.
  destruct (backup_session _ _ _ _ _ HS) as (w1 & E1 & HS1).
  destruct (backup_session _ _ _ _ _ HS1) as (w2 & E2 & HS2).
  pose proof (backup_labels _ _ _ _ _ _ HS Hls) as Hl1.
  destruct (backup_clock_size _ _ _ _ _ HS) as [Hk1 Hs1].
  destruct (backup_clock_size _ _ _ _ _ HS1) as [Hk2 Hs2].
  rewrite E1 in Hl1, Hk1, Hs1. cbn [snd] in Hl1, Hk1, Hs1.
  pose proof (backup_labels _ _ _ _ _ _ HS1 Hl1) as Hl2.
  rewrite E2 in Hl2, Hk2, Hs2. cbn [snd] in Hl2, Hk2, Hs2.
  rewrite Hk1, <- app_assoc in Hl2.
  exists w2. eexists. split_and!.
  - by rewrite (exec_cons (Backup c) _ _ _ E1), (exec_cons (Backup c) _ _ _ E2).
  - rewrite <- app_assoc in HS2. by eapply Session_history.
  - exact Hl2.
  - by rewrite Hs2, Hs1.
Qed.

Lemma double_capture_witness :
  Session demo 1 1 "A" []
  ∧ labels_of 1 demo = Some []
  ∧ ∃ w' l,
    exec [Backup 1; Backup 1] demo = (Normal tt, w')
    ∧ history_of 1 w' = Some ([] ++ ["A"; "A"])
    ∧ labels_of 1 w' = Some ([] ++ [l; l])
    ∧ size (snapshots w') = S (S (size (snapshots demo))).
Proof.
  split; [by vm_compute|]. split; [by vm_compute|].
  apply (double_capture demo 1 1 "A" [] []); by vm_compute.
Defined.
